(** * Weather forecasting pipeline: feature engineering and its glue

    A shallow embedding of [Notebooks_and_Scripts/notebook.ipynb]:
    the Kelvin correction, the location mapping, [create_features]
    (canonical sort, grouped lags, rolling statistics, lag differences)
    and the per-target training loop.

    Conventions.
    - A float cell is an [option Q]: [None] is NaN, [Some q] a defined
      value; arithmetic is exact rational arithmetic.
    - A data frame is a list of rows in index order.  Columns that
      [create_features] adds are kept in a column store next to the rows.
    - pandas primitives ([sort_values], [groupby().shift], [rolling],
      [groupby().first], [merge]) are written out as the functions they
      compute.
    - The range of the reconstructed wind direction depends on the
      rounding of doubles; that one computation is written on binary64
      numbers, with the arc tangent of the C library as a parameter. *)

From Stdlib Require Import QArith Qabs ZArith Lia Lqa Structures.OrderedTypeEx.
From Stdlib Require Import PrimFloat SpecFloat FloatOps.
From stdpp Require Import gmap strings pretty list fin_maps sorting functions.


(** ** Configuration constants *)

Definition TARGET_COLS_ORIGINAL : list string :=
  ["Avg_Temperature"; "Radiation"; "Rain_Amount"; "Wind_Speed"; "Wind_Direction"].

Definition FEATURE_COLS_FOR_ENGINEERING : list string :=
  ["Avg_Temperature"; "Radiation"; "Rain_Amount"; "Wind_Speed"; "Wind_Direction";
   "Avg_Feels_Like_Temperature"; "Evapotranspiration"; "Rain_Duration";
   "Temperature_Range"; "Feels_Like_Temperature_Range"].

Definition LAGS : list nat := [1; 3; 7; 14; 21; 30; 60]%nat.
Definition ROLLING_WINDOWS : list nat := [3; 7; 14; 30; 60]%nat.

(** ** Rows and frames *)

(** A float cell; [None] is NaN. *)
Abbreviation value := (option Q).

Record Row := mkRow {
  ID : Z;
  kingdom : option string;      (* None: missing kingdom *)
  datetime : option Z;          (* day number; None: NaT *)
  is_test : bool;               (* is_test == 1 *)
  cell : string -> value        (* the numeric columns of the row *)
}.

(** [columns] lists the numeric columns that are present in the frame:
    [col in df.columns and is_numeric_dtype(df[col])]. *)
Record DataFrame := mkFrame {
  rows : list Row;
  columns : list string
}.

Definition set_cell (r : Row) (c : string) (v : value) : Row :=
  {| ID := ID r; kingdom := kingdom r; datetime := datetime r;
     is_test := is_test r;
     cell := fun c' => if String.eqb c' c then v else cell r c' |}.

(** ** Comparison functions that are total orders *)

Class CmpOrder {A : Type} (cmp : A -> A -> comparison) : Prop := {
  cmp_eq_iff : forall a b, cmp a b = Eq <-> a = b;
  cmp_antisym : forall a b, cmp a b = CompOpp (cmp b a);
  cmp_lt_trans : forall a b c, cmp a b = Lt -> cmp b c = Lt -> cmp a c = Lt
}.

(** NaN / NaT first ([na_position='first']). *)
Definition cmp_na_first {A : Type} (cmp : A -> A -> comparison)
    (x y : option A) : comparison :=
  match x, y with
  | None, None => Eq
  | None, Some _ => Lt
  | Some _, None => Gt
  | Some a, Some b => cmp a b
  end.

Definition cmp_lex {A B : Type} (ca : A -> A -> comparison)
    (cb : B -> B -> comparison) (x y : A * B) : comparison :=
  match ca (fst x) (fst y) with
  | Eq => cb (snd x) (snd y)
  | c => c
  end.

(** ** sort_values: a stable sort by key *)

Section StableSort.
Context {A K : Type} (key : A -> K) (cmp : K -> K -> comparison).

Definition key_leb (x y : A) : bool :=
  match cmp (key x) (key y) with Gt => false | _ => true end.

(** The order that [key_leb] decides. *)
Definition key_le (x y : A) : Prop := cmp (key x) (key y) ≠ Gt.

(** [x] goes in front of the first element whose key is not smaller:
    it stays ahead of the elements with its own key. *)
Fixpoint insert_sorted (x : A) (l : list A) : list A :=
  match l with
  | [] => [x]
  | y :: l' => if key_leb x y then x :: l else y :: insert_sorted x l'
  end.

Fixpoint stable_sort (l : list A) : list A :=
  match l with
  | [] => []
  | x :: l' => insert_sorted x (stable_sort l')
  end.
End StableSort.

Definition sort_key : Type := option string * option Z.

Definition row_key (r : Row) : sort_key := (kingdom r, datetime r).

Definition key_compare : sort_key -> sort_key -> comparison :=
  cmp_lex (cmp_na_first String.compare) (cmp_na_first Z.compare).

(** [df.sort_values(by=['kingdom', 'datetime'], na_position='first')
       .reset_index(drop=True)] *)
Definition sort_values (df : DataFrame) : DataFrame :=
  {| rows := stable_sort row_key key_compare (rows df); columns := columns df |}.


(** ** Temperature conversion *)

Definition kelvin_to_celsius (temp_k : Q) : Q := (temp_k - (27315 # 100))%Q.

Definition temp_cols : list string :=
  ["Avg_Temperature"; "Avg_Feels_Like_Temperature"].

(** [mask = (df[col] > 70) & (~df[col].isnull())] *)
Definition kelvin_mask (v : value) : bool :=
  match v with
  | Some x => negb (Qle_bool x 70)
  | None => false
  end.

(** [df.loc[mask, col] = df.loc[mask, col].apply(kelvin_to_celsius)] *)
Definition convert_row (col : string) (r : Row) : Row :=
  if kelvin_mask (cell r col)
  then set_cell r col (kelvin_to_celsius <$> cell r col)
  else r.

Definition convert_column (df : DataFrame) (col : string) : DataFrame :=
  if decide (col ∈ columns df)
  then {| rows := convert_row col <$> rows df; columns := columns df |}
  else df.

Definition convert_temperatures (df : DataFrame) : DataFrame :=
  foldl convert_column df temp_cols.

(** ** Location mapping *)

(** One step of [GroupBy.first()]: a column keeps its first non-null
    entry. *)
Definition first_valid (acc v : value) : value :=
  match acc with
  | Some _ => acc
  | None => v
  end.

(** [df[df['is_test'] == 0].groupby('kingdom')[['latitude', 'longitude']].first()]:
    rows with a missing kingdom belong to no group. *)
Definition coord_step (m : gmap string (value * value)) (r : Row)
    : gmap string (value * value) :=
  match kingdom r with
  | Some g =>
      if is_test r then m
      else
        let acc := default (None, None) (m !! g) in
        <[g := (first_valid acc.1 (cell r "latitude"),
                first_valid acc.2 (cell r "longitude"))]> m
  | None => m
  end.

Definition coord_map (rs : list Row) : gmap string (value * value) :=
  foldl coord_step ∅ rs.

(** The left merge on [kingdom]: a key without a match gets NaN. *)
Definition merge_coords (m : gmap string (value * value)) (r : Row) : Row :=
  let hit := kingdom r ≫= (m !!.) in
  set_cell (set_cell r "latitude" (hit ≫= fst)) "longitude" (hit ≫= snd).

Definition map_locations (df : DataFrame) : DataFrame :=
  let m := coord_map (rows df) in
  {| rows := merge_coords m <$> rows df;
     columns := filter (λ c, c ∉ ["latitude"; "longitude"]) (columns df)
                ++ ["latitude"; "longitude"] |}.

(** ** Grouped shift *)

(** [df.groupby('kingdom')[col].shift(periods)], one pass in index order.
    [seen] holds, per group, the values met so far, the latest first.  A
    row with a missing key belongs to no group and gets NaN. *)
Fixpoint shift_scan (periods : nat) (seen : gmap string (list value))
    (keys : list (option string)) (vals : list value) : list value :=
  match keys, vals with
  | k :: keys', v :: vals' =>
      match k with
      | None => None :: shift_scan periods seen keys' vals'
      | Some g =>
          let hist := default [] (seen !! g) in
          match periods with
          | O => v
          | S p => default None (hist !! p)
          end :: shift_scan periods (<[g := v :: hist]> seen) keys' vals'
      end
  | _, _ => []
  end.

Definition groupby_shift (keys : list (option string)) (vals : list value)
    (periods : nat) : list value :=
  shift_scan periods ∅ keys vals.

(** ** Rolling statistics *)

Inductive stat := Mean | Std | Median | Min | Max.

(** The float primitives of numpy that have no rational counterpart. *)
Record FloatOps := mkFloatOps {
  np_sqrt : Q -> Q;
  np_sin : Q -> Q;
  np_cos : Q -> Q;
  np_deg2rad : Q -> Q
}.

(** The [window] entries that end at position [i]. *)
Definition window_at (window : nat) (s : list value) (i : nat) : list value :=
  drop (S i - window) (take (S i) s).

(** The non-NaN entries of a window. *)
Definition observations (win : list value) : list Q := omap id win.

Definition Qsum (l : list Q) : Q := foldr Qplus 0%Q l.

Definition Qlen (l : list Q) : Q := inject_Z (Z.of_nat (length l)).

Definition agg_mean (obs : list Q) : value :=
  match obs with
  | [] => None
  | _ => Some (Qsum obs / Qlen obs)%Q
  end.

(** Sample variance ([ddof = 1]): NaN unless there are two observations. *)
Definition agg_var (obs : list Q) : value :=
  if decide (length obs ≤ 1) then None
  else
    let m := (Qsum obs / Qlen obs)%Q in
    Some (Qsum ((λ x, (x - m) * (x - m))%Q <$> obs) / (Qlen obs - 1))%Q.

Definition agg_std (ops : FloatOps) (obs : list Q) : value :=
  np_sqrt ops <$> agg_var obs.

Definition agg_median (obs : list Q) : value :=
  let sorted := stable_sort id Qcompare obs in
  let n := length sorted in
  if Nat.even n
  then match sorted !! (n / 2 - 1), sorted !! (n / 2) with
       | Some a, Some b => Some ((a + b) / 2)%Q
       | _, _ => None
       end
  else sorted !! (n / 2).

Definition Qmin' (a b : Q) : Q := if Qle_bool a b then a else b.
Definition Qmax' (a b : Q) : Q := if Qle_bool a b then b else a.

Definition agg_min (obs : list Q) : value :=
  match obs with
  | [] => None
  | x :: l => Some (foldl Qmin' x l)
  end.

Definition agg_max (obs : list Q) : value :=
  match obs with
  | [] => None
  | x :: l => Some (foldl Qmax' x l)
  end.

Definition aggregate (ops : FloatOps) (s : stat) : list Q -> value :=
  match s with
  | Mean => agg_mean
  | Std => agg_std ops
  | Median => agg_median
  | Min => agg_min
  | Max => agg_max
  end.

(** [series.rolling(window=window, min_periods=min_periods).agg()]: at
    each position of the series, over the window that ends there. *)
Definition rolling (s : list value) (window min_periods : nat)
    (agg : list Q -> value) : list value :=
  imap (λ i _,
          let obs := observations (window_at window s i) in
          if decide (min_periods ≤ length obs) then agg obs else None) s.

(** ** The columns that feature engineering adds *)

(** The name of an added column: [f'{col}_lag_{lag}'],
    [f'{col}_roll_{window}_{stat}'], [f'{col}_lag_{a}_diff_{b}'],
    ['Wind_Direction_sin'], ['Wind_Direction_cos']. *)
Inductive colname :=
  | LagCol (col : string) (lag : nat)
  | RollCol (col : string) (window : nat) (s : stat)
  | LagDiffCol (col : string) (a b : nat)
  | WindSin
  | WindCos.

Global Instance stat_eq_dec : EqDecision stat.
Proof. solve_decision. Defined.

Global Instance colname_eq_dec : EqDecision colname.
Proof. solve_decision. Defined.

Definition stat_name (s : stat) : string :=
  match s with
  | Mean => "mean"
  | Std => "std"
  | Median => "median"
  | Min => "min"
  | Max => "max"
  end.

Definition column_name (c : colname) : string :=
  match c with
  | LagCol col lag => col +:+ "_lag_" +:+ pretty lag
  | RollCol col window s =>
      col +:+ "_roll_" +:+ pretty window +:+ "_" +:+ stat_name s
  | LagDiffCol col a b =>
      col +:+ "_lag_" +:+ pretty a +:+ "_diff_" +:+ pretty b
  | WindSin => "Wind_Direction_sin"
  | WindCos => "Wind_Direction_cos"
  end.

(** Every column that [create_features] can add. *)
Definition engineered_columns : list colname :=
  (col ← FEATURE_COLS_FOR_ENGINEERING;
   (LagCol col <$> LAGS)
   ++ (w ← ROLLING_WINDOWS; RollCol col w <$> [Mean; Std; Median; Min; Max])
   ++ [LagDiffCol col 1 7; LagDiffCol col 7 30])
  ++ [WindSin; WindCos].

(** The frame during and after [create_features]: the sorted rows and
    the columns added so far ([None]: no such column). *)
Record Features := mkFeatures {
  frame : DataFrame;
  derived : colname -> option (list value)
}.

(** [df[col]] for an input column. *)
Definition base_column (df : Features) (col : string) : list value :=
  (λ r, cell r col) <$> rows (frame df).

(** [df[name] = v] *)
Definition set_column (name : colname) (v : list value) (df : Features)
    : Features :=
  {| frame := frame df; derived := <[name := Some v]> (derived df) |}.

(** Element-wise [a - b] of two aligned float series. *)
Definition series_sub (a b : list value) : list value :=
  zip_with (λ x y, match x, y with
                   | Some p, Some q => Some (p - q)%Q
                   | _, _ => None
                   end) a b.

(** ** create_features *)

Section CreateFeatures.
Variable ops : FloatOps.

(** The body of [for window in ROLLING_WINDOWS]. *)
Definition add_rolling (col : string) (shifted : list value)
    (df : Features) (window : nat) : Features :=
  let rolling_obj := rolling shifted window (Nat.max 1 (window / 2)) in
  let df := set_column (RollCol col window Mean) (rolling_obj (aggregate ops Mean)) df in
  let df := set_column (RollCol col window Std) (rolling_obj (aggregate ops Std)) df in
  let df := set_column (RollCol col window Median) (rolling_obj (aggregate ops Median)) df in
  let df := set_column (RollCol col window Min) (rolling_obj (aggregate ops Min)) df in
  set_column (RollCol col window Max) (rolling_obj (aggregate ops Max)) df.

(** The body of the first [for col in FEATURE_COLS_FOR_ENGINEERING]. *)
Definition add_lag_roll (df : Features) (col : string) : Features :=
  if decide (col ∈ columns (frame df)) then
    let keys := kingdom <$> rows (frame df) in
    let df_col := groupby_shift keys (base_column df col) in
    let shifted := df_col 1 in
    let df := foldl (λ d lag, set_column (LagCol col lag) (df_col lag) d) df LAGS in
    foldl (add_rolling col shifted) df ROLLING_WINDOWS
  else df.

(** The body of the second [for col in FEATURE_COLS_FOR_ENGINEERING]. *)
Definition add_lag_diff (df : Features) (col : string) : Features :=
  if decide (col ∈ columns (frame df)) then
    let lag1 := derived df (LagCol col 1) in
    let lag7 := derived df (LagCol col 7) in
    let lag30 := derived df (LagCol col 30) in
    let df :=
      match lag1, lag7 with
      | Some l1, Some l7 => set_column (LagDiffCol col 1 7) (series_sub l1 l7) df
      | _, _ => df
      end in
    match lag7, lag30 with
    | Some l7, Some l30 => set_column (LagDiffCol col 7 30) (series_sub l7 l30) df
    | _, _ => df
    end
  else df.

(** The sine and cosine of the wind direction; NaN stays NaN. *)
Definition add_wind_sin_cos (df : Features) : Features :=
  if decide ("Wind_Direction" ∈ columns (frame df)) then
    let radians : list value :=
      option_map (np_deg2rad ops) <$> base_column df "Wind_Direction" in
    let df := set_column WindSin (option_map (np_sin ops) <$> radians) df in
    set_column WindCos (option_map (np_cos ops) <$> radians) df
  else df.

(** [create_features] from the sort on; the calendar date of a row is
    its [datetime] field. *)
Definition create_features (df : DataFrame) : Features :=
  let df := {| frame := sort_values df; derived := λ _, None |} in
  let df := foldl add_lag_roll df FEATURE_COLS_FOR_ENGINEERING in
  let df := foldl add_lag_diff df FEATURE_COLS_FOR_ENGINEERING in
  add_wind_sin_cos df.

End CreateFeatures.

(** ** Reading a region's series *)

(** The entries of a column at the rows of kingdom [g], in index order. *)
Definition region_values (g : string) (keys : list (option string))
    (vals : list value) : list value :=
  snd <$> filter (λ p, p.1 = Some g) (zip keys vals).

Definition region_base (g : string) (df : Features) (col : string) : list value :=
  region_values g (kingdom <$> rows (frame df)) (base_column df col).

Definition region_derived (g : string) (df : Features) (name : colname)
    : list value :=
  region_values g (kingdom <$> rows (frame df)) (default [] (derived df name)).

(** ** Training and prediction *)

Definition targets_to_predict : list string :=
  ["Avg_Temperature"; "Radiation"; "Rain_Amount"; "Wind_Speed";
   "Wind_Direction_sin"; "Wind_Direction_cos"].

Section Training.
Context {Model : Type}.
(** Building the regressor with the parameters of a target and fitting
    it on [X], [y]; [None] when that raises. *)
Variable fit : string -> list (list value) -> list Q -> option Model.
Variable predict : Model -> list (list value) -> list Q.

(** One round of [for target in targets_to_predict]: the column
    [predictions[target]], or [None] when the round raises.
    [X_train_full] and [y_train_full] are [df_train[features]] and
    [df_train[target]], row by row. *)
Definition predict_target (features : list string)
    (X_train_full : list (list value)) (y_train_full : list value)
    (X_test_full : list (list value)) (target : string) : option (list Q) :=
  let valid := filter (λ p, is_Some p.2) (zip X_train_full y_train_full) in
  let X_train_target := fst <$> valid in
  let y_train_target := omap snd valid in
  if decide (length X_train_target = 0 ∨ length features = 0) then
    Some (replicate (length X_test_full) 0%Q)
  else
    model ← fit target X_train_target y_train_target;
    Some (predict model X_test_full).

(** [for target in targets_to_predict]: the [predictions] table once
    every round is through, or [None] when a round raises.
    [y_train_full target] is [df_train[target]]. *)
Fixpoint training_loop (features : list string)
    (X_train_full : list (list value)) (y_train_full : string -> list value)
    (X_test_full : list (list value)) (targets : list string)
    (predictions : gmap string (list Q)) : option (gmap string (list Q)) :=
  match targets with
  | [] => Some predictions
  | target :: rest =>
      target_preds ← predict_target features X_train_full
                       (y_train_full target) X_test_full target;
      training_loop features X_train_full y_train_full X_test_full rest
        (<[target := target_preds]> predictions)
  end.

End Training.

(** ** The engineered columns, named

    What the loops of [create_features] assign, as functions of the
    sorted frame. *)

(** [df.groupby('kingdom')[col].shift(k)] *)
Definition lag_column (df : DataFrame) (col : string) (k : nat) : list value :=
  groupby_shift (kingdom <$> rows df) ((λ r, cell r col) <$> rows df) k.

(** [shifted.rolling(window, min_periods=max(1, window // 2)).stat()] *)
Definition roll_column (ops : FloatOps) (df : DataFrame) (col : string)
    (window : nat) (s : stat) : list value :=
  rolling (lag_column df col 1) window (Nat.max 1 (window / 2)) (aggregate ops s).

(** [lag_a - lag_b] *)
Definition diff_column (df : DataFrame) (col : string) (a b : nat) : list value :=
  series_sub (lag_column df col a) (lag_column df col b).

(** One difference assignment of [add_lag_diff]: made when both lag
    columns exist, otherwise the column stays as it was. *)
Definition diff_step (l1 l2 old : option (list value)) : option (list value) :=
  match l1, l2 with
  | Some a, Some b => Some (series_sub a b)
  | _, _ => old
  end.

(** ** Reading the glue steps

    What the Kelvin rule does to one cell, and the rows and entries the
    location mapping draws from. *)

(** The cell after the Kelvin correction. *)
Definition converted (v : value) : value :=
  if kelvin_mask v then kelvin_to_celsius <$> v else v.

(** The historical rows of kingdom [g], in index order. *)
Definition hist_rows (g : string) (rs : list Row) : list Row :=
  filter (λ r, kingdom r = Some g ∧ is_test r = false) rs.

(** The first non-NaN entry of a series. *)
Fixpoint first_defined (l : list value) : value :=
  match l with
  | [] => None
  | Some x :: _ => Some x
  | None :: l' => first_defined l'
  end.

(** The coordinates of every row are those of the first historical row
    of the row's kingdom. *)
Definition coords_of_first_hist_row (df : DataFrame) : Prop :=
  ∀ i r' g h,
    rows (map_locations df) !! i = Some r' ->
    kingdom r' = Some g ->
    head (hist_rows g (rows df)) = Some h ->
    cell r' "latitude" = cell h "latitude" ∧
    cell r' "longitude" = cell h "longitude".

(** ** Region isolation, as the specification words it *)

(** The frame without the rows of kingdom [g]. *)
Definition without_region (g : string) (df : DataFrame) : DataFrame :=
  {| rows := filter (λ r, kingdom r ≠ Some g) (rows df); columns := columns df |}.

(** The rolling statistic over the shifted series of kingdom [g] alone:
    the window never leaves the region. *)
Definition roll_in_region (ops : FloatOps) (g : string) (df : DataFrame)
    (col : string) (window : nat) (s : stat) : list value :=
  rolling (region_values g (kingdom <$> rows df) (lag_column df col 1))
    window (Nat.max 1 (window / 2)) (aggregate ops s).

(** ** Sample frames *)

(** A row with the given cells; every other cell is NaN. *)
Definition sample_row (g : string) (day : Z) (test : bool)
    (cells : list (string * Q)) : Row :=
  {| ID := day; kingdom := Some g; datetime := Some day; is_test := test;
     cell := λ c, (list_to_map cells : gmap string Q) !! c |}.

(** Float primitives that play no part in the sample computations. *)
Definition sample_ops : FloatOps :=
  {| np_sqrt := id; np_sin := id; np_cos := id; np_deg2rad := id |}.

(** Kingdom "A" on two days and kingdom "B" on one day. *)
Definition two_regions : DataFrame :=
  {| rows := [sample_row "B" 1 false [("Radiation", 5%Q)];
              sample_row "A" 1 false [("Radiation", 1%Q)];
              sample_row "A" 2 false [("Radiation", 2%Q)]];
     columns := ["Radiation"] |}.

(** Kingdom "A" on eight days with radiation 4, 0, 0, 0, 0, 0, 10, 0. *)
Definition eight_days : DataFrame :=
  {| rows := [sample_row "A" 1 false [("Radiation", 4%Q)];
              sample_row "A" 2 false [("Radiation", 0%Q)];
              sample_row "A" 3 false [("Radiation", 0%Q)];
              sample_row "A" 4 false [("Radiation", 0%Q)];
              sample_row "A" 5 false [("Radiation", 0%Q)];
              sample_row "A" 6 false [("Radiation", 0%Q)];
              sample_row "A" 7 false [("Radiation", 10%Q)];
              sample_row "A" 8 false [("Radiation", 0%Q)]];
     columns := ["Radiation"] |}.

(** Two historical rows of kingdom "A", the first without a latitude,
    and one inference row. *)
Definition late_latitude : DataFrame :=
  {| rows := [sample_row "A" 1 false [("longitude", 1%Q)];
              sample_row "A" 2 false [("latitude", 2%Q); ("longitude", 3%Q)];
              sample_row "A" 3 true []];
     columns := ["latitude"; "longitude"] |}.

(** Temperatures on both sides of the threshold. *)
Definition mixed_units : DataFrame :=
  {| rows := [sample_row "A" 1 false [("Avg_Temperature", 300%Q)];
              sample_row "A" 2 false [("Avg_Temperature", 25%Q)]];
     columns := ["Avg_Temperature"] |}.

(** ** The canonical order, as a relation *)

Definition na_first_lt {A : Type} (lt : A -> A -> Prop) (x y : option A) : Prop :=
  match x, y with
  | None, Some _ => True
  | Some a, Some b => lt a b
  | _, None => False
  end.

Definition na_first_le {A : Type} (le : A -> A -> Prop) (x y : option A) : Prop :=
  match x, y with
  | None, _ => True
  | Some a, Some b => le a b
  | Some _, None => False
  end.

(** Row [a] may stand before row [b]: a smaller kingdom, or the same
    kingdom and a date that is not later; missing values first. *)
Definition canonical_le (a b : Row) : Prop :=
  na_first_lt String_as_OT.lt (kingdom a) (kingdom b) ∨
  (kingdom a = kingdom b ∧ na_first_le Z.le (datetime a) (datetime b)).

(** ** smape *)

(** Two one-dimensional arrays brought to one shape, entry by entry: a
    one-element array is stretched to the other's length; [None] when
    the shapes do not fit (numpy raises). *)
Definition broadcast (a b : list value) : option (list (value * value)) :=
  if decide (length a = length b) then Some (zip a b)
  else match a, b with
       | [x], _ => Some ((λ y, (x, y)) <$> b)
       | _, [y] => Some ((λ x, (x, y)) <$> a)
       | _, _ => None
       end.

(** [np.where(denominator < epsilon, 0, numerator / denominator)] at one
    entry, in exact arithmetic: rounding and the overflow of binary64
    to infinity are not modelled. *)
Definition smape_ratio (y_true y_pred : Q) : Q :=
  let numerator := Qabs (y_pred - y_true) in
  let denominator := ((Qabs y_true + Qabs y_pred) / 2)%Q in
  let epsilon := (1 # 1000000000)%Q in
  if Qle_bool epsilon denominator then (numerator / denominator)%Q else 0%Q.

(** The ratio where an entry may be NaN: NaN then. *)
Definition nan_ratio (p : value * value) : value :=
  match p with
  | (Some t, Some y) => Some (smape_ratio t y)
  | _ => None
  end.

(** [np.mean]: NaN for an empty array and for an array with a NaN. *)
Definition np_mean (l : list value) : value :=
  match l with
  | [] => None
  | _ => xs ← mapM id l; Some (Qsum xs / Qlen xs)%Q
  end.

(** Symmetric mean absolute percentage error; [None] when the two
    arrays do not fit. *)
Definition smape (y_true y_pred : list value) : option value :=
  pairs ← broadcast y_true y_pred;
  Some ((λ m, m * 100)%Q <$> np_mean (nan_ratio <$> pairs)).

(** ** Changing cells of a frame *)

(** The frame with every row passed through [g]. *)
Definition map_rows (g : Row -> Row) (df : DataFrame) : DataFrame :=
  {| rows := g <$> rows df; columns := columns df |}.

(** The columns that [create_features] adds to a frame with the given
    numeric columns. *)
Definition is_engineered (cols : list string) (name : colname) : Prop :=
  match name with
  | LagCol c k => c ∈ FEATURE_COLS_FOR_ENGINEERING ∧ c ∈ cols ∧ k ∈ LAGS
  | RollCol c w _ =>
      c ∈ FEATURE_COLS_FOR_ENGINEERING ∧ c ∈ cols ∧ w ∈ ROLLING_WINDOWS
  | LagDiffCol c a b =>
      c ∈ FEATURE_COLS_FOR_ENGINEERING ∧ c ∈ cols ∧
      ((a, b) = (1, 7) ∨ (a, b) = (7, 30))
  | WindSin | WindCos => "Wind_Direction" ∈ cols
  end.

(** Sine or cosine of a direction in degrees; NaN stays NaN. *)
Definition wind_component (ops : FloatOps) (f : FloatOps -> Q -> Q)
    (v : value) : value :=
  option_map (f ops) (option_map (np_deg2rad ops) v).



(** ** Regressor parameters *)

(** A value of a parameter dictionary. *)
Inductive param :=
  | PInt (z : Z)
  | PNum (q : Q)
  | PStr (s : string)
  | PNone.

Global Instance param_inhabited : Inhabited param := populate PNone.

Definition best_params_all_targets : gmap string (gmap string param) :=
  list_to_map
    [("Avg_Temperature",
       list_to_map
         [("n_estimators", PInt 1900);
          ("learning_rate", PNum (828128689475584 # 10000000000000000));
          ("num_leaves", PInt 39);
          ("lambda_l1", PNum (8750689764462542 # 100000000000000000000));
          ("lambda_l2", PNum (393275189240028 # 10000000000000000000));
          ("feature_fraction", PNum (9890231216201054 # 10000000000000000));
          ("bagging_fraction", PNum (7459183833074896 # 10000000000000000));
          ("bagging_freq", PInt 7);
          ("min_child_samples", PInt 31)]);
     ("Radiation",
       list_to_map
         [("n_estimators", PInt 2800);
          ("learning_rate", PNum (8956222974984081 # 100000000000000000));
          ("num_leaves", PInt 57);
          ("lambda_l1", PNum (8960599433071907 # 10000000000000000000));
          ("lambda_l2", PNum (18201280565840412 # 10000000000000000000000));
          ("feature_fraction", PNum (5240160851989188 # 10000000000000000));
          ("bagging_fraction", PNum (9707406766511902 # 10000000000000000));
          ("bagging_freq", PInt 7);
          ("min_child_samples", PInt 9)]);
     ("Rain_Amount",
       list_to_map
         [("n_estimators", PInt 2700);
          ("learning_rate", PNum (5103340014737211 # 100000000000000000));
          ("num_leaves", PInt 58);
          ("lambda_l1", PNum (25182729657402397 # 10000000000000000000));
          ("lambda_l2", PNum (2973823781791273 # 1000000000000000000));
          ("feature_fraction", PNum (9399075201882323 # 10000000000000000));
          ("bagging_fraction", PNum (8035248983116494 # 10000000000000000));
          ("bagging_freq", PInt 3);
          ("min_child_samples", PInt 53)]);
     ("Wind_Speed",
       list_to_map
         [("n_estimators", PInt 2900);
          ("learning_rate", PNum (7831440628654988 # 100000000000000000));
          ("num_leaves", PInt 57);
          ("lambda_l1", PNum (15647344185333698 # 100000000000000000000));
          ("lambda_l2", PNum (38472028866963404 # 100000000000000000));
          ("feature_fraction", PNum (5763391897615601 # 10000000000000000));
          ("bagging_fraction", PNum (9290802446572453 # 10000000000000000));
          ("bagging_freq", PInt 7);
          ("min_child_samples", PInt 24)]);
     ("Wind_Direction_sin",
       list_to_map
         [("n_estimators", PInt 2400);
          ("learning_rate", PNum (6902085344455576 # 100000000000000000));
          ("num_leaves", PInt 57);
          ("lambda_l1", PNum (40524998041614247 # 100000000000000000000));
          ("lambda_l2", PNum (1649496287281898 # 1000000000000000000));
          ("feature_fraction", PNum (9920034571118559 # 10000000000000000));
          ("bagging_fraction", PNum (8809290260521517 # 10000000000000000));
          ("bagging_freq", PInt 5);
          ("min_child_samples", PInt 18)]);
     ("Wind_Direction_cos",
       list_to_map
         [("n_estimators", PInt 3000);
          ("learning_rate", PNum (8566941408355047 # 100000000000000000));
          ("num_leaves", PInt 54);
          ("lambda_l1", PNum (10956539954233748 # 10000000000000000));
          ("lambda_l2", PNum (8981181634918208 # 10000000000000000));
          ("feature_fraction", PNum (9964466174073006 # 10000000000000000));
          ("bagging_fraction", PNum (9957888418801415 # 10000000000000000));
          ("bagging_freq", PInt 5);
          ("min_child_samples", PInt 30)])].

Definition default_lgb_params : gmap string param :=
  list_to_map
    [("objective", PStr "regression_l1"); ("metric", PStr "mae");
     ("n_estimators", PInt 1500);
     ("learning_rate", PNum (5 # 100)); ("feature_fraction", PNum (8 # 10));
     ("bagging_fraction", PNum (8 # 10));
     ("bagging_freq", PInt 1); ("lambda_l1", PNum (1 # 10));
     ("lambda_l2", PNum (1 # 10));
     ("num_leaves", PInt 31); ("verbose", PInt (-1)); ("n_jobs", PInt (-1));
     ("seed", PInt 42);
     ("boosting_type", PStr "gbdt")].

(** The parameters a target is trained with, for a table [best] of
    tuned parameters: the defaults, updated with the tuned entry of the
    target (none: nothing to update), the objective forced, the Tweedie
    power dropped, a missing or [None] number of estimators replaced by
    the default one, the seed forced. *)
Definition final_lgb_params_with (best : gmap string (gmap string param))
    (target : string) : gmap string param :=
  let tuned_params := default ∅ (best !! target) in
  let final := tuned_params ∪ default_lgb_params in
  let final := <["objective" := PStr "regression_l1"]> final in
  let final := delete "tweedie_variance_power" final in
  let final :=
    match final !! "n_estimators" with
    | None | Some PNone =>
        <["n_estimators" := default_lgb_params !!! "n_estimators"]> final
    | Some _ => final
    end in
  <["seed" := PInt 42]> final.

Definition final_lgb_params : string -> gmap string param :=
  final_lgb_params_with best_params_all_targets.

(** ** Post-processing and the submission *)

(** [np.maximum(0, x)] *)
Definition clip_negative (x : Q) : Q := Qmax' 0 x.

(** [np.maximum(0, predictions_final[col])] *)
Definition clip_column (l : list Q) : list Q := clip_negative <$> l.

Definition clipped_cols : list string := ["Radiation"; "Rain_Amount"; "Wind_Speed"].

(** [predictions[cols]]: the table cut down to [cols], [None] (a
    [KeyError]) when one of them is missing. *)
Fixpoint select_columns (cols : list string) (table : gmap string (list Q))
    : option (gmap string (list Q)) :=
  match cols with
  | [] => Some ∅
  | c :: cols' =>
      v ← table !! c;
      rest ← select_columns cols' table;
      Some (<[c := v]> rest)
  end.

Section PostProcessing.
(** [np.rad2deg(np.arctan2(pred_sin, pred_cos)) % 360] for one row. *)
Variable wind_direction : Q -> Q -> Q.

(** The predictions that go into the submission: the wind direction
    put together from its sine and cosine, the five original targets
    selected, and the three non-negative ones clipped at 0. *)
Definition predictions_final (predictions : gmap string (list Q))
    : option (gmap string (list Q)) :=
  pred_sin ← predictions !! "Wind_Direction_sin";
  pred_cos ← predictions !! "Wind_Direction_cos";
  let final_wind_direction_preds := zip_with wind_direction pred_sin pred_cos in
  let predictions := <["Wind_Direction" := final_wind_direction_preds]> predictions in
  selected ← select_columns TARGET_COLS_ORIGINAL predictions;
  Some (foldl (λ t col, alter clip_column col t) selected clipped_cols).

End PostProcessing.

(** The rows of the right table that carry the ID [s], by position. *)
Definition positions_of (ids : list Z) (s : Z) : list nat :=
  fst <$> filter (λ p : nat * Z, p.2 = s) (imap pair ids).

(** [sample_sub[['ID']].merge(predictions_final, on='ID', how='left')],
    as the rows of the result: a sample ID with the position of each
    matching prediction in turn, or once with no position when nothing
    matches. *)
Definition merge_left (sample_ids pred_ids : list Z) : list (Z * option nat) :=
  sample_ids ≫= λ s,
    match positions_of pred_ids s with
    | [] => [(s, None)]
    | js => (λ j, (s, Some j)) <$> js
    end.

(** A prediction column read along the merged rows; NaN where nothing
    matched. *)
Definition merged_column (merged : list (Z * option nat)) (col : list Q)
    : list value :=
  (λ p : Z * option nat, p.2 ≫= (col !!.)) <$> merged.

(** [series.isnull().any()] *)
Definition has_null (l : list value) : bool :=
  existsb (λ v : value, match v with None => true | Some _ => false end) l.

(** [series.fillna(0)] *)
Definition fillna_0 (l : list value) : list value :=
  (λ v : value, Some (default 0%Q v)) <$> l.

(** [if final_submission.isnull().any().any(): final_submission.fillna(0)],
    on the columns of the merged frame. *)
Definition fill_missing (cols : gmap string (list value))
    : gmap string (list value) :=
  if existsb has_null (snd <$> map_to_list cols)
  then fillna_0 <$> cols
  else cols.

(** The submission: the ID column and the target columns. *)
Definition final_submission (sample_ids pred_ids : list Z)
    (predictions_final : gmap string (list Q))
    : list Z * gmap string (list value) :=
  let merged := merge_left sample_ids pred_ids in
  (fst <$> merged, fill_missing (merged_column merged <$> predictions_final)).

(** ** Putting the two files together and taking them apart again *)

(** A row of a file with the given numeric columns, as a row of the
    combined frame: the flag set, and NaN in every column the file does
    not have. *)
Definition as_combined (test : bool) (cols : list string) (r : Row) : Row :=
  {| ID := ID r; kingdom := kingdom r; datetime := datetime r;
     is_test := test;
     cell := λ c, if decide (c ∈ cols) then cell r c else None |}.

(** The preprocessing of the base data: both files flagged, the
    columns that only one file has filled with NaN in the other, the
    training rows first.  Columns of one name hold numbers in both
    files or in neither. *)
Definition concat_frames (train_df_orig test_df_orig : DataFrame) : DataFrame :=
  {| rows := (as_combined false (columns train_df_orig) <$> rows train_df_orig)
             ++ (as_combined true (columns test_df_orig) <$> rows test_df_orig);
     columns := columns train_df_orig
                ++ filter (λ c, c ∉ columns train_df_orig)
                     (columns test_df_orig
                      ++ filter (λ c, c ∉ columns test_df_orig)
                           TARGET_COLS_ORIGINAL) |}.

(** Everything up to the split: location mapping, temperature
    conversion, feature engineering. *)
Definition prepare (ops : FloatOps) (train_df_orig test_df_orig : DataFrame)
    : Features :=
  create_features ops
    (convert_temperatures (map_locations (concat_frames train_df_orig test_df_orig))).

(** [df[df['is_test'] == 0]] and [df[df['is_test'] == 1]] *)
Definition df_train (df : Features) : list Row :=
  filter (λ r, is_test r = false) (rows (frame df)).

Definition df_test (df : Features) : list Row :=
  filter (λ r, is_test r = true) (rows (frame df)).

(** [test_ids = df_test['ID']] *)
Definition test_ids (df : Features) : list Z := ID <$> df_test df.

(** ** Further sample inputs *)

(** A row whose kingdom is missing. *)
Definition stray_row : Row :=
  {| ID := 2; kingdom := None; datetime := Some 2%Z; is_test := false;
     cell := λ c, if String.eqb c "Radiation" then Some 7%Q else None |}.

(** Two rows of kingdom "A" around a row whose kingdom is missing. *)
Definition stray_row_frame : DataFrame :=
  {| rows := [sample_row "A" 1 false [("Radiation", 1%Q)];
              stray_row;
              sample_row "A" 3 false [("Radiation", 3%Q)]];
     columns := ["Radiation"] |}.

(** A wind direction on the first day and none on the second. *)
Definition wind_frame : DataFrame :=
  {| rows := [sample_row "A" 1 false [("Wind_Direction", 90%Q)];
              sample_row "A" 2 false []];
     columns := ["Wind_Direction"] |}.

(** Overwrites the radiation of every row from day 4 on. *)
Definition overwrite_from_day_4 (r : Row) : Row :=
  match datetime r with
  | Some d => if (d <? 4)%Z then r else set_cell r "Radiation" (Some 100%Q)
  | None => r
  end.

(** Predictions for three rows, some of them negative. *)
Definition sample_predictions : gmap string (list Q) :=
  list_to_map
    [("Avg_Temperature", [(-3)%Q; 20%Q; 25%Q]);
     ("Radiation", [(-1)%Q; 0%Q; 5%Q]);
     ("Rain_Amount", [2%Q; (-2)%Q; 0%Q]);
     ("Wind_Speed", [4%Q; 6%Q; (-7)%Q]);
     ("Wind_Direction_sin", [0%Q; 1%Q; 0%Q]);
     ("Wind_Direction_cos", [1%Q; 0%Q; (-1)%Q])].

(** A stand-in for the reconstruction of the direction, which plays no
    part in the sample computations. *)
Definition sample_wind_direction (pred_sin pred_cos : Q) : Q := 0%Q.

(** ** The wind direction put together again, in binary64

    The post-processing works on numpy's doubles; what it computes is
    modelled here on the kernel's binary64 numbers. *)

(** [NPY_PI] and numpy's [RAD2DEG = 180.0 / NPY_PI]. *)
Definition NPY_PI : float := 0x1.921fb54442d18p+1%float.
Definition RAD2DEG : float := (180 / NPY_PI)%float.

(** [np.rad2deg] *)
Definition np_rad2deg (x : float) : float := (x * RAD2DEG)%float.

(** C's [fmod]: the remainder of the division truncated towards zero,
    which is exact and has the sign of [x]. *)
Definition fmod (x y : float) : float :=
  match Prim2SF x with
  | S754_nan | S754_infinity _ => nan
  | S754_zero _ =>
      match Prim2SF y with
      | S754_nan | S754_zero _ => nan
      | _ => x
      end
  | S754_finite sx mx ex =>
      match Prim2SF y with
      | S754_nan | S754_zero _ => nan
      | S754_infinity _ => x
      | S754_finite _ my ey =>
          let e := Z.min ex ey in
          let a := (Zpos mx * 2 ^ (ex - e))%Z in
          let b := (Zpos my * 2 ^ (ey - e))%Z in
          SF2Prim (binary_normalize prec emax (cond_Zopp sx (a mod b)) e sx)
      end
  end.

(** [a % b] on doubles ([np.remainder], as Python's [%]): [fmod],
    moved by [b] when it is not zero and its sign is not that of [b]. *)
Definition np_remainder (a b : float) : float :=
  let r := fmod a b in
  (if b =? 0 then r
   else if negb (r =? 0)
        then if xorb (b <? 0) (r <? 0) then r + b else r
        else if b <? 0 then neg_zero else zero)%float.

Section WindDirection.
(** [np.arctan2], the arc tangent of the C library. *)
Variable np_arctan2 : float -> float -> float.

(** One row of [final_wind_direction_preds]:
    [np.rad2deg(np.arctan2(pred_sin, pred_cos)) % 360]. *)
Definition final_wind_direction_preds (pred_sin pred_cos : float) : float :=
  let angle_rad := np_arctan2 pred_sin pred_cos in
  let angle_deg := np_rad2deg angle_rad in
  np_remainder angle_deg 360%float.

End WindDirection.

(** The double next to -1e-20, a predicted sine just below zero. *)
Definition tiny_negative_sine : float := (-0x1.79ca10c924223p-67)%float.

(** The arc tangent where the sine is tiny against a positive cosine:
    there it is the quotient, to the last bit. *)
Definition small_angle_arctan2 (y x : float) : float := (y / x)%float.

(** * Properties *)

(** Membership in a list that is written out. *)
Ltac in_list := repeat ((by left) || right).
(** ** Order lemmas *)

Lemma string_cmp_order : CmpOrder String.compare.
Proof.
  split.
  - apply String_as_OT.cmp_eq.
  - apply String_as_OT.cmp_antisym.
  - intros a b c H1 H2. apply String_as_OT.cmp_lt.
    apply String_as_OT.cmp_lt in H1, H2.
    exact (String_as_OT.lt_trans _ _ _ H1 H2).
Qed.

Lemma Z_cmp_order : CmpOrder Z.compare.
Proof.
  split.
  - apply Z.compare_eq_iff.
  - intros a b. apply Z.compare_antisym.
  - intros a b c. rewrite !Z.compare_lt_iff. lia.
Qed.

Lemma na_first_order {A} (cmp : A -> A -> comparison) :
  CmpOrder cmp -> CmpOrder (cmp_na_first cmp).
Proof.
  intros [He Ha Ht]. split.
  - intros [a|] [b|]; simpl; rewrite ?He; split; intros; congruence.
  - intros [a|] [b|]; simpl; auto.
  - intros [a|] [b|] [c|]; simpl; eauto; discriminate.
Qed.

Lemma lex_order {A B} (ca : A -> A -> comparison) (cb : B -> B -> comparison) :
  CmpOrder ca -> CmpOrder cb -> CmpOrder (cmp_lex ca cb).
Proof.
  intros [Hea Haa Hta] [Heb Hab Htb]. split.
  - intros [a1 b1] [a2 b2]. unfold cmp_lex; simpl.
    destruct (ca a1 a2) eqn:E.
    + apply Hea in E. subst. rewrite Heb. split; intros; congruence.
    + split; [discriminate|]. intros [= -> ->].
      assert (ca a2 a2 = Eq) by (apply Hea; reflexivity). congruence.
    + split; [discriminate|]. intros [= -> ->].
      assert (ca a2 a2 = Eq) by (apply Hea; reflexivity). congruence.
  - intros [a1 b1] [a2 b2]. unfold cmp_lex; simpl.
    rewrite (Haa a1 a2). destruct (ca a2 a1); simpl; auto.
  - intros [a1 b1] [a2 b2] [a3 b3]. unfold cmp_lex; simpl.
    destruct (ca a1 a2) eqn:E12; try discriminate;
      destruct (ca a2 a3) eqn:E23; try discriminate; intros H1 H2.
    + apply Hea in E12, E23. subst.
      assert (ca a3 a3 = Eq) as -> by (apply Hea; reflexivity). eauto.
    + apply Hea in E12. subst. rewrite E23. reflexivity.
    + apply Hea in E23. subst. rewrite E12. reflexivity.
    + rewrite (Hta _ _ _ E12 E23). reflexivity.
Qed.

Lemma key_compare_order : CmpOrder key_compare.
Proof.
  apply lex_order; apply na_first_order;
    [apply string_cmp_order | apply Z_cmp_order].
Qed.

(** ** The stable sort *)

Section StableSortFacts.
Context {A K : Type} (key : A -> K) (cmp : K -> K -> comparison).
Context (Hord : CmpOrder cmp) `{EqDecision K}.

Local Abbreviation le := (key_le key cmp).

Lemma key_leb_le x y : key_leb key cmp x y = true <-> le x y.
Proof.
  unfold key_leb, le. destruct (cmp (key x) (key y)); split; congruence.
Qed.

Lemma le_total_flip x y : key_leb key cmp x y = false -> le y x.
Proof.
  unfold key_leb, le. rewrite (cmp_antisym (key y) (key x)).
  destruct (cmp (key x) (key y)); simpl; congruence.
Qed.

Lemma le_transitive x y z : le x y -> le y z -> le x z.
Proof.
  unfold le. intros Hxy Hyz.
  destruct (cmp (key x) (key y)) eqn:E1; [| |congruence];
    destruct (cmp (key y) (key z)) eqn:E2; try congruence.
  - apply cmp_eq_iff in E1. rewrite E1, E2. discriminate.
  - apply cmp_eq_iff in E1. rewrite E1, E2. discriminate.
  - apply cmp_eq_iff in E2. rewrite <- E2, E1. discriminate.
  - rewrite (cmp_lt_trans _ _ _ E1 E2). discriminate.
Qed.

Lemma insert_sorted_perm x l : insert_sorted key cmp x l ≡ₚ x :: l.
Proof.
  induction l as [|y l IH]; simpl; [done|].
  destruct (key_leb key cmp x y); [done|].
  rewrite IH. apply Permutation_swap.
Qed.

Lemma stable_sort_perm l : stable_sort key cmp l ≡ₚ l.
Proof.
  induction l as [|x l IH]; simpl; [done|].
  rewrite insert_sorted_perm. by rewrite IH.
Qed.

Lemma insert_sorted_sorted x l :
  StronglySorted le l -> StronglySorted le (insert_sorted key cmp x l).
Proof.
  induction 1 as [|y l Hs IH Hall]; simpl.
  - repeat constructor.
  - destruct (key_leb key cmp x y) eqn:E.
    + apply key_leb_le in E. constructor; [by constructor|].
      constructor; [done|].
      eapply Forall_impl; [|exact Hall]. intros z Hz.
      by apply le_transitive with y.
    + apply le_total_flip in E. constructor; [done|].
      rewrite insert_sorted_perm. by constructor.
Qed.

Lemma stable_sort_sorted l : StronglySorted le (stable_sort key cmp l).
Proof.
  induction l as [|x l IH]; simpl; [constructor|].
  by apply insert_sorted_sorted.
Qed.

(** The elements of one key keep their order. *)
Lemma insert_sorted_stable k x l :
  filter (λ y, key y = k) (insert_sorted key cmp x l)
  = filter (λ y, key y = k) (x :: l).
Proof.
  induction l as [|y l IH]; simpl; [done|].
  destruct (key_leb key cmp x y) eqn:E; [done|].
  rewrite filter_cons, IH, !filter_cons.
  destruct (decide (key y = k)) as [Hy|Hy]; [|done].
  destruct (decide (key x = k)) as [Hx|Hx]; [|done].
  exfalso. unfold key_leb in E. rewrite Hx, Hy in E.
  assert (cmp k k = Eq) as Hkk by (by apply cmp_eq_iff).
  rewrite Hkk in E. discriminate.
Qed.

Lemma stable_sort_stable k l :
  filter (λ y, key y = k) (stable_sort key cmp l) = filter (λ y, key y = k) l.
Proof.
  induction l as [|x l IH]; simpl; [done|].
  rewrite insert_sorted_stable, !filter_cons, IH. done.
Qed.

End StableSortFacts.

Lemma na_first_compare_le (x y : option Z) :
  cmp_na_first Z.compare x y ≠ Gt -> na_first_le Z.le x y.
Proof. destruct x, y; simpl; intros H; try done. Qed.

Lemma key_compare_canonical a b :
  key_compare (row_key a) (row_key b) ≠ Gt -> canonical_le a b.
Proof.
  unfold key_compare, cmp_lex, row_key, canonical_le; simpl.
  destruct (kingdom a) as [ka|], (kingdom b) as [kb|]; simpl; try tauto.
  - destruct (String.compare ka kb) eqn:E; [| |done].
    + apply String_as_OT.cmp_eq in E. subst. intros H. right.
      split; [done|]. by apply na_first_compare_le.
    + apply String_as_OT.cmp_lt in E. by left.
  - intros H. right. split; [done|]. by apply na_first_compare_le.
Qed.

(** ** Grouped shift *)

Lemma region_values_cons g k keys v vals :
  region_values g (k :: keys) (v :: vals)
  = if decide (k = Some g) then v :: region_values g keys vals
    else region_values g keys vals.
Proof.
  unfold region_values. simpl. rewrite filter_cons. simpl.
  by destruct (decide (k = Some g)).
Qed.

Lemma region_values_nil_r g keys : region_values g keys [] = [].
Proof. unfold region_values. by destruct keys. Qed.

Lemma shift_scan_length p seen keys vals :
  length (shift_scan p seen keys vals) = length keys `min` length vals.
Proof.
  revert seen vals. induction keys as [|k keys IH]; intros seen [|v vals];
    simpl; try done.
  destruct k; simpl; by rewrite IH.
Qed.

(** The rows of a group see the earlier rows of that group and nothing
    else: entry [i] of the group reads position [p] of the group's
    history, which is the reversed prefix of its own series followed by
    what was seen before. *)
Lemma shift_scan_region g p keys vals seen i :
  let series := region_values g keys vals in
  i < length series ->
  region_values g keys (shift_scan (S p) seen keys vals) !! i
  = Some (default None
            ((reverse (take i series) ++ default [] (seen !! g)) !! p)).
Proof.
  revert vals seen i. induction keys as [|k keys IH]; intros [|v vals] seen i;
    try (rewrite region_values_nil_r; simpl; lia);
    try (unfold region_values; simpl; lia).
  simpl. destruct k as [g'|].
  - rewrite !region_values_cons.
    destruct (decide (Some g' = Some g)) as [[= ->]|Hne].
    + destruct i as [|i]; simpl; [done|]. intros Hi.
      rewrite IH by lia. rewrite lookup_insert_eq. simpl.
      by rewrite reverse_cons, <- app_assoc.
    + intros Hi. rewrite IH by done.
        rewrite lookup_insert_ne by congruence. done.
  - rewrite !region_values_cons.
    destruct (decide (None = Some g)); [done|]. intros Hi. by apply IH.
Qed.

Lemma shift_scan_region_length g p keys vals seen :
  length (region_values g keys (shift_scan p seen keys vals))
  = length (region_values g keys vals).
Proof.
  revert vals seen. induction keys as [|k keys IH]; intros [|v vals] seen;
    try (by unfold region_values).
  simpl. destruct k as [g'|]; rewrite !region_values_cons;
    case_decide; simpl; by rewrite IH.
Qed.

(** A grouped shift by [k >= 1], read on one region: the region's own
    series moved down by [k] places. *)
Lemma groupby_shift_region g k keys vals i :
  0 < k ->
  let series := region_values g keys vals in
  i < length series ->
  region_values g keys (groupby_shift keys vals k) !! i
  = if decide (k ≤ i) then series !! (i - k) else Some None.
Proof.
  intros Hk series Hi. destruct k as [|p]; [lia|].
  unfold groupby_shift. rewrite shift_scan_region by done.
  rewrite lookup_empty. simpl. rewrite app_nil_r.
  fold series. case_decide as Hle.
  - rewrite reverse_lookup by (rewrite length_take; lia).
    rewrite length_take, lookup_take_lt by lia.
    replace (i `min` length series - S p) with (i - S p) by lia.
    destruct (lookup_lt_is_Some_2 series (i - S p)) as [x Hx]; [lia|].
    by rewrite Hx.
  - rewrite lookup_ge_None_2; [done|].
    rewrite length_reverse, length_take. lia.
Qed.

(** A row without a kingdom gets NaN. *)
Lemma shift_scan_no_key p seen keys vals i :
  keys !! i = Some None -> i < length vals ->
  shift_scan p seen keys vals !! i = Some None.
Proof.
  revert seen vals i. induction keys as [|k keys IH]; intros seen [|v vals] i;
    simpl; try done; try (intros; lia).
  destruct i as [|i]; simpl.
  - intros [= ->] _. done.
  - intros Hk Hi. destruct k; simpl; apply IH; (done || lia).
Qed.

(** ** Column names *)

(** The names of the added columns are pairwise different and none is
    the name of an engineered input column: keeping the added columns
    under [colname] keys loses no assignment. *)
Lemma column_names_distinct :
  NoDup (FEATURE_COLS_FOR_ENGINEERING ++ (column_name <$> engineered_columns)).
Proof. apply (bool_decide_unpack _). vm_compute. exact I. Qed.

(** ** The column store through [create_features] *)

Lemma derived_set_column_eq name v df :
  derived (set_column name v df) name = Some v.
Proof. unfold set_column; simpl. apply fn_lookup_insert. Qed.

Lemma derived_set_column_ne name name' v df :
  name ≠ name' -> derived (set_column name v df) name' = derived df name'.
Proof. intros H. unfold set_column; simpl. by apply fn_lookup_insert_ne. Qed.

Section CreateFeaturesFacts.
Variable ops : FloatOps.

Lemma frame_add_rolling col shifted df window :
  frame (add_rolling ops col shifted df window) = frame df.
Proof. done. Qed.

Lemma frame_foldl_add_rolling col shifted windows df :
  frame (foldl (add_rolling ops col shifted) df windows) = frame df.
Proof.
  revert df. induction windows as [|w ws IH]; intros df; simpl; [done|].
  by rewrite IH.
Qed.

Lemma frame_foldl_set_lag col (f : nat -> list value) lags df :
  frame (foldl (λ d lag, set_column (LagCol col lag) (f lag) d) df lags)
  = frame df.
Proof.
  revert df. induction lags as [|k ks IH]; intros df; simpl; [done|].
  by rewrite IH.
Qed.

Lemma frame_add_lag_roll df col : frame (add_lag_roll ops df col) = frame df.
Proof.
  unfold add_lag_roll. case_decide; [|done].
  by rewrite frame_foldl_add_rolling, frame_foldl_set_lag.
Qed.

Lemma frame_foldl_add_lag_roll cols df :
  frame (foldl (add_lag_roll ops) df cols) = frame df.
Proof.
  revert df. induction cols as [|c cs IH]; intros df; simpl; [done|].
  by rewrite IH, frame_add_lag_roll.
Qed.

Lemma frame_add_lag_diff df col : frame (add_lag_diff df col) = frame df.
Proof.
  unfold add_lag_diff. case_decide; [|done].
  destruct (derived df (LagCol col 1)), (derived df (LagCol col 7)),
    (derived df (LagCol col 30)); done.
Qed.

Lemma frame_foldl_add_lag_diff cols df :
  frame (foldl add_lag_diff df cols) = frame df.
Proof.
  revert df. induction cols as [|c cs IH]; intros df; simpl; [done|].
  by rewrite IH, frame_add_lag_diff.
Qed.

Lemma frame_add_wind_sin_cos df : frame (add_wind_sin_cos ops df) = frame df.
Proof. unfold add_wind_sin_cos. by case_decide. Qed.

(** The rows that [create_features] returns are the sorted input rows. *)
Lemma frame_create_features df :
  frame (create_features ops df) = sort_values df.
Proof.
  unfold create_features.
  by rewrite frame_add_wind_sin_cos, frame_foldl_add_lag_diff,
    frame_foldl_add_lag_roll.
Qed.

(** *** Lag columns *)

Lemma derived_foldl_set_lag col (f : nat -> list value) lags df c k :
  derived (foldl (λ d lag, set_column (LagCol col lag) (f lag) d) df lags)
    (LagCol c k)
  = if decide (col = c ∧ k ∈ lags) then Some (f k) else derived df (LagCol c k).
Proof.
  revert df. induction lags as [|l ls IH]; intros df; simpl.
  - case_decide as H; [|done]. destruct H as [_ H]. by apply elem_of_nil in H.
  - rewrite IH. destruct (decide (col = c ∧ k ∈ ls)) as [[-> Hin]|Hn].
    + rewrite decide_True; [done|]. split; [done|]. by right.
    + destruct (decide (LagCol col l = LagCol c k)) as [[= -> ->]|Hne].
      * rewrite derived_set_column_eq, decide_True; [done|].
        split; [done|]. by left.
      * rewrite derived_set_column_ne by done.
        rewrite decide_False; [done|]. intros [-> Hin].
        apply elem_of_cons in Hin as [->|Hin]; [done|]. by apply Hn.
Qed.

Lemma derived_foldl_add_rolling_lag col shifted windows df c k :
  derived (foldl (add_rolling ops col shifted) df windows) (LagCol c k)
  = derived df (LagCol c k).
Proof.
  revert df. induction windows as [|w ws IH]; intros df; simpl; [done|].
  rewrite IH. unfold add_rolling.
  by rewrite !derived_set_column_ne.
Qed.

Lemma derived_add_lag_roll_lag df col c k :
  derived (add_lag_roll ops df col) (LagCol c k)
  = if decide (col = c ∧ col ∈ columns (frame df) ∧ k ∈ LAGS)
    then Some (lag_column (frame df) c k)
    else derived df (LagCol c k).
Proof.
  unfold add_lag_roll. case_decide as Hcol.
  - rewrite derived_foldl_add_rolling_lag, derived_foldl_set_lag.
    destruct (decide (col = c ∧ k ∈ LAGS)) as [[-> Hk]|Hn].
    + by rewrite decide_True.
    + rewrite decide_False; [done|]. intros (-> & _ & Hk). by apply Hn.
  - rewrite decide_False; [done|]. intros (_ & H & _). by apply Hcol.
Qed.

Lemma derived_foldl_add_lag_roll_lag cols df c k :
  derived (foldl (add_lag_roll ops) df cols) (LagCol c k)
  = if decide (c ∈ cols ∧ c ∈ columns (frame df) ∧ k ∈ LAGS)
    then Some (lag_column (frame df) c k)
    else derived df (LagCol c k).
Proof.
  revert df. induction cols as [|x xs IH]; intros df; simpl.
  - done.
  - rewrite IH, frame_add_lag_roll, derived_add_lag_roll_lag.
    destruct (decide (c ∈ xs ∧ c ∈ columns (frame df) ∧ k ∈ LAGS))
      as [(H1 & H2 & H3)|Hn].
    + rewrite decide_True; [done|]. split; [by right|done].
    + destruct (decide (x = c ∧ x ∈ columns (frame df) ∧ k ∈ LAGS))
        as [(-> & H2 & H3)|Hn'].
      * rewrite decide_True; [done|]. split; [by left|done].
      * rewrite decide_False; [done|]. intros (H1 & H2 & H3).
        apply elem_of_cons in H1 as [->|H1]; [by apply Hn'|by apply Hn].
Qed.

Lemma derived_add_lag_diff_lag df col c k :
  derived (add_lag_diff df col) (LagCol c k) = derived df (LagCol c k).
Proof.
  unfold add_lag_diff. case_decide; [|done].
  destruct (derived df (LagCol col 1)), (derived df (LagCol col 7)),
    (derived df (LagCol col 30)); by rewrite ?derived_set_column_ne.
Qed.

Lemma derived_foldl_add_lag_diff_lag cols df c k :
  derived (foldl add_lag_diff df cols) (LagCol c k) = derived df (LagCol c k).
Proof.
  revert df. induction cols as [|x xs IH]; intros df; simpl; [done|].
  by rewrite IH, derived_add_lag_diff_lag.
Qed.

Lemma derived_add_wind_other df name :
  name ≠ WindSin -> name ≠ WindCos ->
  derived (add_wind_sin_cos ops df) name = derived df name.
Proof.
  intros H1 H2. unfold add_wind_sin_cos. case_decide; [|done].
  by rewrite !derived_set_column_ne.
Qed.

(** A lag column of the result is the grouped shift of the sorted base
    column. *)
Lemma create_features_lag df col k :
  col ∈ FEATURE_COLS_FOR_ENGINEERING -> col ∈ columns df -> k ∈ LAGS ->
  derived (create_features ops df) (LagCol col k)
  = Some (lag_column (sort_values df) col k).
Proof.
  intros Hc Hp Hk. unfold create_features.
  rewrite derived_add_wind_other by done.
  rewrite derived_foldl_add_lag_diff_lag, derived_foldl_add_lag_roll_lag.
  simpl. by rewrite decide_True.
Qed.

(** *** Rolling columns *)

Lemma derived_add_rolling col shifted df window c w s :
  derived (add_rolling ops col shifted df window) (RollCol c w s)
  = if decide (col = c ∧ window = w)
    then Some (rolling shifted w (Nat.max 1 (w / 2)) (aggregate ops s))
    else derived df (RollCol c w s).
Proof.
  unfold add_rolling. case_decide as H.
  - destruct H as [-> ->].
    destruct s; rewrite ?derived_set_column_ne by done;
      by rewrite derived_set_column_eq.
  - rewrite !derived_set_column_ne; [done|..]; intros [= -> -> _]; by apply H.
Qed.

Lemma derived_foldl_add_rolling col shifted windows df c w s :
  derived (foldl (add_rolling ops col shifted) df windows) (RollCol c w s)
  = if decide (col = c ∧ w ∈ windows)
    then Some (rolling shifted w (Nat.max 1 (w / 2)) (aggregate ops s))
    else derived df (RollCol c w s).
Proof.
  revert df. induction windows as [|x xs IH]; intros df; simpl.
  - case_decide as H; [|done]. destruct H as [_ H]. by apply elem_of_nil in H.
  - rewrite IH, derived_add_rolling.
    destruct (decide (col = c ∧ w ∈ xs)) as [[-> Hin]|Hn].
    + rewrite decide_True; [done|]. split; [done|]. by right.
    + destruct (decide (col = c ∧ x = w)) as [[-> ->]|Hn'].
      * rewrite decide_True; [done|]. split; [done|]. by left.
      * rewrite decide_False; [done|]. intros [-> Hin].
        apply elem_of_cons in Hin as [->|Hin]; [by apply Hn'|by apply Hn].
Qed.

Lemma derived_foldl_set_lag_other col (f : nat -> list value) lags df name :
  (∀ c k, name ≠ LagCol c k) ->
  derived (foldl (λ d lag, set_column (LagCol col lag) (f lag) d) df lags) name
  = derived df name.
Proof.
  intros Hname. revert df.
  induction lags as [|l ls IH]; intros df; simpl; [done|].
  rewrite IH. apply derived_set_column_ne. intros H. by eapply Hname.
Qed.

Lemma derived_add_lag_roll_roll df col c w s :
  derived (add_lag_roll ops df col) (RollCol c w s)
  = if decide (col = c ∧ col ∈ columns (frame df) ∧ w ∈ ROLLING_WINDOWS)
    then Some (roll_column ops (frame df) c w s)
    else derived df (RollCol c w s).
Proof.
  unfold add_lag_roll. case_decide as Hcol.
  - rewrite derived_foldl_add_rolling, derived_foldl_set_lag_other by done.
    destruct (decide (col = c ∧ w ∈ ROLLING_WINDOWS)) as [[-> Hk]|Hn].
    + by rewrite decide_True.
    + rewrite decide_False; [done|]. intros (-> & _ & Hk). by apply Hn.
  - rewrite decide_False; [done|]. intros (_ & H & _). by apply Hcol.
Qed.

Lemma derived_foldl_add_lag_roll_roll cols df c w s :
  derived (foldl (add_lag_roll ops) df cols) (RollCol c w s)
  = if decide (c ∈ cols ∧ c ∈ columns (frame df) ∧ w ∈ ROLLING_WINDOWS)
    then Some (roll_column ops (frame df) c w s)
    else derived df (RollCol c w s).
Proof.
  revert df. induction cols as [|x xs IH]; intros df; simpl.
  - done.
  - rewrite IH, frame_add_lag_roll, derived_add_lag_roll_roll.
    destruct (decide (c ∈ xs ∧ c ∈ columns (frame df) ∧ w ∈ ROLLING_WINDOWS))
      as [(H1 & H2 & H3)|Hn].
    + rewrite decide_True; [done|]. split; [by right|done].
    + destruct (decide (x = c ∧ x ∈ columns (frame df) ∧ w ∈ ROLLING_WINDOWS))
        as [(-> & H2 & H3)|Hn'].
      * rewrite decide_True; [done|]. split; [by left|done].
      * rewrite decide_False; [done|]. intros (H1 & H2 & H3).
        apply elem_of_cons in H1 as [->|H1]; [by apply Hn'|by apply Hn].
Qed.

Lemma derived_add_lag_diff_roll df col c w s :
  derived (add_lag_diff df col) (RollCol c w s) = derived df (RollCol c w s).
Proof.
  unfold add_lag_diff. case_decide; [|done].
  destruct (derived df (LagCol col 1)), (derived df (LagCol col 7)),
    (derived df (LagCol col 30)); by rewrite ?derived_set_column_ne.
Qed.

Lemma derived_foldl_add_lag_diff_roll cols df c w s :
  derived (foldl add_lag_diff df cols) (RollCol c w s) = derived df (RollCol c w s).
Proof.
  revert df. induction cols as [|x xs IH]; intros df; simpl; [done|].
  by rewrite IH, derived_add_lag_diff_roll.
Qed.

(** A rolling column of the result is the rolling statistic of the
    sorted frame's lag-1 column, taken over the whole column. *)
Lemma create_features_roll df col w s :
  col ∈ FEATURE_COLS_FOR_ENGINEERING -> col ∈ columns df ->
  w ∈ ROLLING_WINDOWS ->
  derived (create_features ops df) (RollCol col w s)
  = Some (roll_column ops (sort_values df) col w s).
Proof.
  intros Hc Hp Hk. unfold create_features.
  rewrite derived_add_wind_other by done.
  rewrite derived_foldl_add_lag_diff_roll, derived_foldl_add_lag_roll_roll.
  simpl. by rewrite decide_True.
Qed.

(** *** Lag differences *)

Lemma derived_add_lag_diff_1_7 df col c :
  derived (add_lag_diff df col) (LagDiffCol c 1 7)
  = if decide (col = c ∧ col ∈ columns (frame df))
    then diff_step (derived df (LagCol c 1)) (derived df (LagCol c 7))
           (derived df (LagDiffCol c 1 7))
    else derived df (LagDiffCol c 1 7).
Proof.
  unfold add_lag_diff. case_decide as Hcol.
  - destruct (decide (col = c)) as [->|Hne].
    + rewrite decide_True by done.
      destruct (derived df (LagCol c 1)), (derived df (LagCol c 7)),
        (derived df (LagCol c 30)); simpl;
        rewrite ?fn_lookup_insert_ne by congruence;
        by rewrite ?fn_lookup_insert.
    + rewrite decide_False by (by intros [? _]).
      destruct (derived df (LagCol col 1)), (derived df (LagCol col 7)),
        (derived df (LagCol col 30)); simpl;
        rewrite ?fn_lookup_insert_ne by congruence; done.
  - rewrite decide_False; [done|]. intros [_ H]. by apply Hcol.
Qed.

Lemma derived_add_lag_diff_7_30 df col c :
  derived (add_lag_diff df col) (LagDiffCol c 7 30)
  = if decide (col = c ∧ col ∈ columns (frame df))
    then diff_step (derived df (LagCol c 7)) (derived df (LagCol c 30))
           (derived df (LagDiffCol c 7 30))
    else derived df (LagDiffCol c 7 30).
Proof.
  unfold add_lag_diff. case_decide as Hcol.
  - destruct (decide (col = c)) as [->|Hne].
    + rewrite decide_True by done.
      destruct (derived df (LagCol c 1)), (derived df (LagCol c 7)),
        (derived df (LagCol c 30)); simpl;
        rewrite ?fn_lookup_insert_ne by congruence;
        by rewrite ?fn_lookup_insert.
    + rewrite decide_False by (by intros [? _]).
      destruct (derived df (LagCol col 1)), (derived df (LagCol col 7)),
        (derived df (LagCol col 30)); simpl;
        rewrite ?fn_lookup_insert_ne by congruence; done.
  - rewrite decide_False; [done|]. intros [_ H]. by apply Hcol.
Qed.

Lemma derived_foldl_add_lag_diff_diff cols df c a b :
  (a, b) = (1, 7) ∨ (a, b) = (7, 30) ->
  c ∈ cols -> c ∈ columns (frame df) ->
  derived (foldl add_lag_diff df cols) (LagDiffCol c a b)
  = diff_step (derived df (LagCol c a)) (derived df (LagCol c b))
      (derived (foldl add_lag_diff df cols) (LagDiffCol c a b)).
Proof.
  intros Hab. revert df. induction cols as [|x xs IH]; intros df Hin Hcol.
  - by apply elem_of_nil in Hin.
  - simpl. destruct (decide (c ∈ xs)) as [Hxs|Hxs].
    + rewrite IH at 1 by (by rewrite ?frame_add_lag_diff).
      by rewrite !derived_add_lag_diff_lag.
    + apply elem_of_cons in Hin as [->|Hin]; [|done].
      destruct (derived df (LagCol x a)) as [l1|] eqn:E1; [|done].
      destruct (derived df (LagCol x b)) as [l2|] eqn:E2; [|done].
      simpl.
      assert (∀ d, frame d = frame df ->
                derived d (LagDiffCol x a b) = Some (series_sub l1 l2) ->
                derived (foldl add_lag_diff d xs) (LagDiffCol x a b)
                = Some (series_sub l1 l2)) as Hkeep.
      { clear IH. induction xs as [|y ys IHy]; intros d Hd Hv; simpl; [done|].
        apply not_elem_of_cons in Hxs as [Hxy Hys].
        apply IHy; [done|by rewrite frame_add_lag_diff|].
        destruct Hab as [[= -> ->]|[= -> ->]].
        - rewrite derived_add_lag_diff_1_7, decide_False; [done|].
          by intros [-> _].
        - rewrite derived_add_lag_diff_7_30, decide_False; [done|].
          by intros [-> _]. }
      apply Hkeep; [by rewrite frame_add_lag_diff|].
      destruct Hab as [[= -> ->]|[= -> ->]].
      * rewrite derived_add_lag_diff_1_7, decide_True by done.
        by rewrite E1, E2.
      * rewrite derived_add_lag_diff_7_30, decide_True by done.
        by rewrite E1, E2.
Qed.

(** A lag-difference column of the result is the element-wise
    difference of the two lag columns. *)
Lemma create_features_diff df col a b :
  (a, b) = (1, 7) ∨ (a, b) = (7, 30) ->
  col ∈ FEATURE_COLS_FOR_ENGINEERING -> col ∈ columns df ->
  derived (create_features ops df) (LagDiffCol col a b)
  = Some (diff_column (sort_values df) col a b).
Proof.
  intros Hab Hc Hp. unfold create_features.
  rewrite derived_add_wind_other by done.
  rewrite derived_foldl_add_lag_diff_diff;
    [|done|done|by rewrite frame_foldl_add_lag_roll].
  rewrite !derived_foldl_add_lag_roll_lag.
  assert (a ∈ LAGS ∧ b ∈ LAGS) as [Ha Hb].
  { unfold LAGS. destruct Hab as [[= -> ->]|[= -> ->]];
      split; repeat ((by left) || right). }
  by rewrite !decide_True.
Qed.

End CreateFeaturesFacts.

(** ** Claims about the lag engine and the canonical order *)

Lemma StronglySorted_weaken {A} (R S : A -> A -> Prop) l :
  (∀ x y, R x y -> S x y) -> StronglySorted R l -> StronglySorted S l.
Proof.
  intros HRS. induction 1 as [|x l Hs IH Hall]; constructor; [done|].
  eapply Forall_impl; [|exact Hall]. auto.
Qed.

(** C8. The rows that [create_features] works on are the input rows
    sorted by (kingdom, datetime), missing values first: they are a
    rearrangement of the input, every row may stand before every later
    row in the canonical order, and rows with the same key (the same
    kingdom and the same date, or both dates missing) keep the order
    they had in the input. *)
Theorem canonical_order_sorted_stable (ops : FloatOps) (df : DataFrame) :
  let out := rows (frame (create_features ops df)) in
  out ≡ₚ rows df ∧
  StronglySorted canonical_le out ∧
  (∀ key : sort_key,
     filter (λ r, row_key r = key) out = filter (λ r, row_key r = key) (rows df)).
Proof.
  rewrite frame_create_features. simpl. split; [|split].
  - apply stable_sort_perm.
  - eapply StronglySorted_weaken; [exact key_compare_canonical|].
    apply stable_sort_sorted, key_compare_order.
  - intros key. apply stable_sort_stable, key_compare_order.
Qed.

(** C1. For a base feature that is engineered, a region [g] and a lag
    [k] of [LAGS]: in the region's series of the sorted frame, entry
    [i] of [feature_lag_k] is entry [i - k] of the base feature when
    [k <= i] and NaN otherwise.  It is a function of the region's own
    series up to index [i - k]: in any other input frame whose series
    for [g] agrees on the first [i + 1 - k] entries, whatever the other
    regions and the later entries are, entry [i] is the same. *)
Theorem lag_is_region_shift (ops : FloatOps) (df : DataFrame)
    (col : string) (k : nat) (g : string) :
  col ∈ FEATURE_COLS_FOR_ENGINEERING -> col ∈ columns df -> k ∈ LAGS ->
  let out := create_features ops df in
  let series := region_base g out col in
  let lagged := region_derived g out (LagCol col k) in
  length lagged = length series ∧
  (∀ i, i < length series ->
     lagged !! i = if decide (k ≤ i) then series !! (i - k) else Some None) ∧
  (∀ (df' : DataFrame) i,
     col ∈ columns df' ->
     let out' := create_features ops df' in
     let series' := region_base g out' col in
     i < length series -> i < length series' ->
     take (S i - k) series = take (S i - k) series' ->
     region_derived g out' (LagCol col k) !! i = lagged !! i).
Proof.
  intros Hc Hp Hk.
  assert (0 < k) as Hpos.
  { unfold LAGS in Hk. set_unfold. lia. }
  assert (∀ d, col ∈ columns d ->
    region_derived g (create_features ops d) (LagCol col k)
    = region_values g (kingdom <$> rows (sort_values d))
        (groupby_shift (kingdom <$> rows (sort_values d))
           ((λ r, cell r col) <$> rows (sort_values d)) k)) as Hlag.
  { intros d Hd. unfold region_derived.
    by rewrite create_features_lag, frame_create_features. }
  assert (∀ d, region_base g (create_features ops d) col
    = region_values g (kingdom <$> rows (sort_values d))
        ((λ r, cell r col) <$> rows (sort_values d))) as Hbase.
  { intros d. unfold region_base, base_column.
    by rewrite frame_create_features. }
  cbv zeta. rewrite Hlag, Hbase by done. split; [|split].
  - unfold groupby_shift. apply shift_scan_region_length.
  - intros i Hi. by apply groupby_shift_region.
  - intros df' i Hp' Hi Hi' Hagree.
    rewrite Hlag, Hbase in * by done.
    rewrite !groupby_shift_region by done.
    case_decide as Hle; [|done].
    rewrite <- (lookup_take_lt _ (S i - k)) by lia.
    rewrite <- (lookup_take_lt (region_values _ _ _) (S i - k)) by lia.
    by rewrite Hagree.
Qed.

(** ** Claims about lag differences and rolling thresholds *)

Lemma groupby_shift_length keys vals k :
  length keys = length vals -> length (groupby_shift keys vals k) = length vals.
Proof. intros H. unfold groupby_shift. rewrite shift_scan_length. lia. Qed.

Lemma lag_column_length df col k :
  length (lag_column df col k) = length (rows df).
Proof.
  unfold lag_column. rewrite groupby_shift_length; by rewrite !length_fmap.
Qed.

Lemma stable_sort_length {A K} (key : A -> K) cmp l :
  length (stable_sort key cmp l) = length l.
Proof. apply Permutation_length, stable_sort_perm. Qed.

Lemma sort_values_length df : length (rows (sort_values df)) = length (rows df).
Proof. apply stable_sort_length. Qed.

(** C7. For an engineered feature, the columns [lag_1_diff_7] and
    [lag_7_diff_30] exist and have an entry at every row; at each row
    the entry is the difference of the two lag entries when both are
    defined and NaN when either is NaN.  In particular lag_1 = 10,
    lag_7 = 4, lag_30 = NaN give lag_1_diff_7 = 6 and lag_7_diff_30 =
    NaN. *)
Theorem lag_diff_is_difference (ops : FloatOps) (df : DataFrame) (col : string) :
  col ∈ FEATURE_COLS_FOR_ENGINEERING -> col ∈ columns df ->
  let out := create_features ops df in
  ∃ lag1 lag7 lag30 d17 d730,
    derived out (LagCol col 1) = Some lag1 ∧
    derived out (LagCol col 7) = Some lag7 ∧
    derived out (LagCol col 30) = Some lag30 ∧
    derived out (LagDiffCol col 1 7) = Some d17 ∧
    derived out (LagDiffCol col 7 30) = Some d730 ∧
    length d17 = length (rows df) ∧ length d730 = length (rows df) ∧
    ∀ i x1 x7 x30,
      lag1 !! i = Some x1 -> lag7 !! i = Some x7 -> lag30 !! i = Some x30 ->
      d17 !! i = Some (match x1, x7 with
                       | Some a, Some b => Some (a - b)%Q
                       | _, _ => None
                       end) ∧
      d730 !! i = Some (match x7, x30 with
                        | Some a, Some b => Some (a - b)%Q
                        | _, _ => None
                        end) ∧
      (x1 = Some 10%Q -> x7 = Some 4%Q -> x30 = None ->
       d17 !! i = Some (Some 6%Q) ∧ d730 !! i = Some None).
Proof.
  intros Hc Hp out. subst out.
  exists (lag_column (sort_values df) col 1), (lag_column (sort_values df) col 7),
    (lag_column (sort_values df) col 30),
    (diff_column (sort_values df) col 1 7), (diff_column (sort_values df) col 7 30).
  rewrite !create_features_lag by (done || (unfold LAGS; in_list)).
  rewrite !create_features_diff by auto.
  unfold diff_column, series_sub.
  rewrite !length_zip_with, !lag_column_length, sort_values_length.
  do 5 (split; [done|]). do 2 (split; [lia|]).
  intros i x1 x7 x30 H1 H7 H30.
  rewrite !lookup_zip_with, H1, H7, H30. simpl.
  do 2 (split; [done|]). by intros -> -> ->.
Qed.

Lemma rolling_lookup s w m agg i :
  i < length s ->
  rolling s w m agg !! i
  = Some (let obs := observations (window_at w s i) in
          if decide (m ≤ length obs) then agg obs else None).
Proof.
  intros Hi. unfold rolling. rewrite list_lookup_imap.
  destruct (lookup_lt_is_Some_2 s i Hi) as [x ->]. done.
Qed.

Lemma agg_mean_is_Some obs : is_Some (agg_mean obs) <-> 1 ≤ length obs.
Proof.
  destruct obs; simpl; split; intros H; try lia; try done.
  all: by destruct H.
Qed.

Lemma agg_min_is_Some obs : is_Some (agg_min obs) <-> 1 ≤ length obs.
Proof.
  destruct obs; simpl; split; intros H; try lia; try done.
  all: by destruct H.
Qed.

Lemma agg_max_is_Some obs : is_Some (agg_max obs) <-> 1 ≤ length obs.
Proof.
  destruct obs; simpl; split; intros H; try lia; try done.
  all: by destruct H.
Qed.

Lemma agg_std_is_Some ops obs : is_Some (agg_std ops obs) <-> 2 ≤ length obs.
Proof.
  unfold agg_std, agg_var. case_decide; simpl; split; intros H'; try lia; try done.
  all: by destruct H'.
Qed.

Lemma agg_median_is_Some obs : is_Some (agg_median obs) <-> 1 ≤ length obs.
Proof.
  unfold agg_median. rewrite stable_sort_length.
  set (sorted := stable_sort id Qcompare obs).
  assert (length sorted = length obs) as Hlen by apply stable_sort_length.
  destruct (length obs) as [|n] eqn:En.
  - simpl. destruct sorted; [|done]. simpl. split; [by intros []|lia].
  - split; [lia|]. intros _.
    assert (S n / 2 < S n) as Hhalf by (apply Nat.div_lt; lia).
    destruct (lookup_lt_is_Some_2 sorted (S n / 2)) as [b Hb]; [lia|].
    destruct (lookup_lt_is_Some_2 sorted (S n / 2 - 1)) as [a Ha]; [lia|].
    rewrite Ha, Hb. by destruct (Nat.even (S n)).
Qed.

(** The [min_periods] rule on the window the code takes.  For an
    engineered feature, a window [w] of [ROLLING_WINDOWS] and a row [i]
    of the sorted frame, let [n] be the number of non-NaN entries among
    the [w] entries of the whole shifted column, in frame order, that
    end at row [i].  The rolling statistic at row [i] is defined
    exactly when [n] reaches [max(1, w // 2)] and, for the standard
    deviation, [n] is at least 2.  The window is not the region's own:
    at the first rows of a later region it holds rows of the region
    before. *)
Lemma rolling_min_periods_in_frame (ops : FloatOps) (df : DataFrame)
    (col : string) (w : nat) (s : stat) (i : nat) :
  col ∈ FEATURE_COLS_FOR_ENGINEERING -> col ∈ columns df ->
  w ∈ ROLLING_WINDOWS -> i < length (rows df) ->
  let out := create_features ops df in
  let shifted := default [] (derived out (LagCol col 1)) in
  let n := length (observations (window_at w shifted i)) in
  ∃ rc v,
    derived out (RollCol col w s) = Some rc ∧ rc !! i = Some v ∧
    (n < Nat.max 1 (w / 2) -> v = None) ∧
    (Nat.max 1 (w / 2) ≤ n -> s ≠ Std -> is_Some v) ∧
    (Nat.max 1 (w / 2) ≤ n -> s = Std -> (is_Some v <-> 2 ≤ n)).
Proof.
  intros Hc Hp Hw Hi out shifted n. subst out shifted n.
  rewrite create_features_lag, create_features_roll by (done || (unfold LAGS; in_list)).
  cbn [default from_option id]. unfold roll_column.
  set (shifted := lag_column (sort_values df) col 1).
  eexists _, _. split; [done|].
  split.
  { apply rolling_lookup. unfold shifted.
    by rewrite lag_column_length, sort_values_length. }
  cbv zeta. set (obs := observations (window_at w shifted i)).
  case_decide as Hn.
  - split; [lia|]. split.
    + intros _ Hs. destruct s; simpl; try done.
      * apply agg_mean_is_Some. lia.
      * apply agg_median_is_Some. lia.
      * apply agg_min_is_Some. lia.
      * apply agg_max_is_Some. lia.
    + intros _ ->. simpl. apply agg_std_is_Some.
  - split; [done|]. split; intros; lia.
Qed.

(** ** Claims about the glue: Kelvin rule, location mapping, training *)

Lemma cell_set_cell r c v c' :
  cell (set_cell r c v) c' = if String.eqb c' c then v else cell r c'.
Proof. done. Qed.

Lemma cell_convert_row col r c :
  cell (convert_row col r) c
  = if String.eqb c col then converted (cell r col) else cell r c.
Proof.
  unfold convert_row, converted.
  destruct (kelvin_mask (cell r col)) eqn:E; simpl.
  - done.
  - destruct (String.eqb_spec c col) as [->|]; done.
Qed.

Lemma kelvin_mask_true x : (70 < x)%Q -> kelvin_mask (Some x) = true.
Proof.
  intros H. simpl. apply negb_true_iff, not_true_is_false.
  intros Hle. apply Qle_bool_iff in Hle. by apply Qlt_not_le in H.
Qed.

Lemma kelvin_mask_false x : (x <= 70)%Q -> kelvin_mask (Some x) = false.
Proof. intros H. simpl. apply negb_false_iff. by apply Qle_bool_iff. Qed.

(** C6. For a temperature column that is present and every row: a
    defined cell above 70 becomes the cell minus 273.15, a defined
    cell of at most 70 and a NaN cell stay as they are; 70 stays,
    70.0001 becomes 70.0001 - 273.15, 69.9999 stays.  The columns that
    are not temperature columns keep their cells. *)
Theorem kelvin_rule (df : DataFrame) (col : string) (i : nat) (r : Row) :
  col ∈ temp_cols -> col ∈ columns df -> rows df !! i = Some r ->
  ∃ r', rows (convert_temperatures df) !! i = Some r' ∧
    (∀ x, cell r col = Some x -> (70 < x)%Q ->
          cell r' col = Some (x - (27315 # 100))%Q) ∧
    (∀ x, cell r col = Some x -> (x <= 70)%Q -> cell r' col = Some x) ∧
    (cell r col = None -> cell r' col = None) ∧
    (cell r col = Some 70%Q -> cell r' col = Some 70%Q) ∧
    (cell r col = Some (700001 # 10000) ->
     cell r' col = Some ((700001 # 10000) - (27315 # 100))%Q) ∧
    (cell r col = Some (699999 # 10000) ->
     cell r' col = Some (699999 # 10000)) ∧
    (∀ c, c ∉ temp_cols -> cell r' c = cell r c).
Proof.
  intros Hc Hp Hr.
  assert (∃ r', rows (convert_temperatures df) !! i = Some r' ∧
            cell r' col = converted (cell r col) ∧
            ∀ c, c ∉ temp_cols -> cell r' c = cell r c) as (r' & Hr' & Hcol & Hoth).
  { unfold convert_temperatures, temp_cols in *. simpl.
    set (step := λ c (x : Row), if decide (c ∈ columns df) then convert_row c x else x).
    exists (step "Avg_Feels_Like_Temperature" (step "Avg_Temperature" r)).
    split; [|split].
    - unfold convert_column at 2. unfold convert_column, step.
      destruct (decide ("Avg_Temperature" ∈ columns df)); simpl;
        destruct (decide ("Avg_Feels_Like_Temperature" ∈ columns df)); simpl;
        rewrite ?list_lookup_fmap, Hr; done.
    - unfold step.
      apply elem_of_cons in Hc as [->|Hc];
        [|apply list_elem_of_singleton in Hc as ->];
        destruct (decide ("Avg_Temperature" ∈ columns df));
        destruct (decide ("Avg_Feels_Like_Temperature" ∈ columns df));
        try done; by rewrite ?cell_convert_row.
    - intros c Hnc. unfold step.
      assert (c ≠ "Avg_Temperature" ∧ c ≠ "Avg_Feels_Like_Temperature") as [H1 H2].
      { split; intros ->; apply Hnc; in_list. }
      destruct (decide ("Avg_Temperature" ∈ columns df));
        destruct (decide ("Avg_Feels_Like_Temperature" ∈ columns df));
        rewrite ?cell_convert_row;
        repeat match goal with
               | |- context [String.eqb c ?s] =>
                   destruct (String.eqb_spec c s); [done|]
               end; done. }
  exists r'. split; [done|]. rewrite Hcol.
  assert (∀ x, cell r col = Some x -> (70 < x)%Q ->
            converted (cell r col) = Some (x - (27315 # 100))%Q) as Hhot.
  { intros x -> Hx. unfold converted. by rewrite kelvin_mask_true. }
  assert (∀ x, cell r col = Some x -> (x <= 70)%Q ->
            converted (cell r col) = Some x) as Hcold.
  { intros x -> Hx. unfold converted. by rewrite kelvin_mask_false. }
  repeat split; try done.
  - by intros ->.
  - intros H. by apply Hcold.
  - intros H. by apply Hhot.
  - intros H. by apply Hcold.
Qed.

Lemma foldl_first_valid_Some x l : foldl first_valid (Some x) l = Some x.
Proof. induction l as [|v l IH]; simpl; done. Qed.

Lemma foldl_first_valid_None l : foldl first_valid None l = first_defined l.
Proof.
  induction l as [|[x|] l IH]; simpl; [done| |done].
  apply foldl_first_valid_Some.
Qed.

Lemma hist_rows_cons g r rs :
  hist_rows g (r :: rs)
  = if decide (kingdom r = Some g ∧ is_test r = false)
    then r :: hist_rows g rs else hist_rows g rs.
Proof. unfold hist_rows. by rewrite filter_cons. Qed.

(** The group table after a pass over [rs], started from [m]. *)
Lemma foldl_coord_step_lookup rs m g :
  foldl coord_step m rs !! g
  = match hist_rows g rs with
    | [] => m !! g
    | hs =>
        let acc := default (None, None) (m !! g) in
        Some (foldl first_valid acc.1 ((λ r, cell r "latitude") <$> hs),
              foldl first_valid acc.2 ((λ r, cell r "longitude") <$> hs))
    end.
Proof.
  revert m. induction rs as [|r rs IH]; intros m; simpl; [done|].
  rewrite IH, hist_rows_cons. unfold coord_step.
  destruct (kingdom r) as [g'|] eqn:Ek.
  - destruct (is_test r) eqn:Et.
    + rewrite decide_False; [done|]. by intros [_ ?].
    + destruct (decide (g' = g)) as [->|Hne].
      * rewrite decide_True by done. rewrite lookup_insert_eq. simpl.
        by destruct (hist_rows g rs).
      * rewrite decide_False by (intros [[= ?] _]; done).
        by rewrite lookup_insert_ne.
  - rewrite decide_False; [done|]. by intros [? _].
Qed.

Lemma coord_map_lookup rs g :
  coord_map rs !! g
  = match hist_rows g rs with
    | [] => None
    | hs => Some (first_defined ((λ r, cell r "latitude") <$> hs),
                  first_defined ((λ r, cell r "longitude") <$> hs))
    end.
Proof.
  unfold coord_map. rewrite foldl_coord_step_lookup, lookup_empty.
  destruct (hist_rows g rs); [done|]. by rewrite <- !foldl_first_valid_None.
Qed.

(** C10, as the code has it.  After the location mapping every row,
    historical or not, carries as latitude the first non-NaN latitude
    among the historical rows of its kingdom, and as longitude the
    first non-NaN longitude among them, each taken on its own; a row
    whose kingdom has no historical rows, or that has no kingdom, has
    NaN for both. *)
Theorem coords_are_first_defined (df : DataFrame) (i : nat) (r : Row) :
  rows df !! i = Some r ->
  ∃ r', rows (map_locations df) !! i = Some r' ∧
    kingdom r' = kingdom r ∧ is_test r' = is_test r ∧
    cell r' "latitude"
    = (kingdom r ≫= λ g,
         first_defined ((λ h, cell h "latitude") <$> hist_rows g (rows df))) ∧
    cell r' "longitude"
    = (kingdom r ≫= λ g,
         first_defined ((λ h, cell h "longitude") <$> hist_rows g (rows df))) ∧
    (∀ g, kingdom r = Some g -> hist_rows g (rows df) = [] ->
          cell r' "latitude" = None ∧ cell r' "longitude" = None) ∧
    (kingdom r = None ->
     cell r' "latitude" = None ∧ cell r' "longitude" = None).
Proof.
  intros Hr. exists (merge_coords (coord_map (rows df)) r).
  split; [by (simpl; rewrite list_lookup_fmap, Hr)|].
  do 2 (split; [done|]).
  assert (cell (merge_coords (coord_map (rows df)) r) "latitude"
          = (kingdom r ≫= (coord_map (rows df) !!.)) ≫= fst) as -> by done.
  assert (cell (merge_coords (coord_map (rows df)) r) "longitude"
          = (kingdom r ≫= (coord_map (rows df) !!.)) ≫= snd) as -> by done.
  destruct (kingdom r) as [g|]; simpl; [|by repeat split].
  rewrite coord_map_lookup.
  destruct (hist_rows g (rows df)) as [|h hs] eqn:Eh; simpl.
  - split_and!; done.
  - split_and!; try done. intros g' [= <-] Hnil. congruence.
Qed.

(** C10, as stated, fails: in [late_latitude] the first historical row
    of kingdom "A" has no latitude, and the rows of "A" get the
    latitude of the second one. *)
Lemma coords_not_of_first_hist_row : ¬ coords_of_first_hist_row late_latitude.
Proof.
  intros H.
  destruct (H 0 (merge_coords (coord_map (rows late_latitude))
                   (sample_row "A" 1 false [("longitude", 1%Q)]))
              "A" (sample_row "A" 1 false [("longitude", 1%Q)])) as [Hlat _];
    [reflexivity..|].
  vm_compute in Hlat. discriminate.
Qed.

Section TrainingFacts.
Context {Model : Type}.
Variable fit : string -> list (list value) -> list Q -> option Model.
Variable predict : Model -> list (list value) -> list Q.

Lemma predict_target_empty features X_train_full y_train_full X_test_full target :
  Forall (λ y, y = None) y_train_full ->
  predict_target fit predict features X_train_full y_train_full X_test_full target
  = Some (replicate (length X_test_full) 0%Q).
Proof.
  intros Hall. unfold predict_target.
  assert (filter (λ p : list value * value, is_Some p.2)
            (zip X_train_full y_train_full) = []) as ->.
  { revert X_train_full. induction Hall as [|y ys -> _ IH]; intros [|x xs];
      simpl; try done.
    rewrite filter_cons_False; [apply IH|]. simpl. by intros []. }
  rewrite decide_True; [done|by left].
Qed.

(** What the finished loop holds for a target: the column of its round
    when the target was in the list, the earlier entry otherwise. *)
Lemma training_loop_lookup features X_train_full y_train_full X_test_full
    targets predictions result target :
  training_loop fit predict features X_train_full y_train_full X_test_full
    targets predictions = Some result ->
  result !! target
  = if decide (target ∈ targets)
    then predict_target fit predict features X_train_full
           (y_train_full target) X_test_full target
    else predictions !! target.
Proof.
  revert predictions. induction targets as [|t ts IH]; intros predictions; simpl.
  - by intros [= <-].
  - destruct (predict_target fit predict features X_train_full
                (y_train_full t) X_test_full t) as [v|] eqn:Ev; [|done].
    simpl. intros Hloop. rewrite (IH _ Hloop).
    destruct (decide (target ∈ ts)) as [Hin|Hin].
    + rewrite decide_True; [done|by right].
    + destruct (decide (target = t)) as [->|Hne].
      * rewrite decide_True by by left. by rewrite lookup_insert_eq.
      * rewrite decide_False by (by intros [?|?]%elem_of_cons).
        by rewrite lookup_insert_ne.
Qed.

Lemma training_loop_total features X_train_full y_train_full X_test_full
    targets predictions :
  (∀ t X y, is_Some (fit t X y)) ->
  is_Some (training_loop fit predict features X_train_full y_train_full
             X_test_full targets predictions).
Proof.
  intros Hfit. revert predictions.
  induction targets as [|t ts IH]; intros predictions; simpl; [done|].
  unfold predict_target at 1. case_decide; simpl; [apply IH|].
  match goal with |- context [fit ?a ?b ?c] => destruct (Hfit a b c) as [m ->] end.
  simpl. apply IH.
Qed.

(** C9. When no historical row has a defined value of a target, the
    round for that target does not call the regressor: it returns,
    without raising, one prediction 0 for every inference row, and
    that column is what the finished loop holds for the target.  The
    loop finishes whenever the regressor raises for no target. *)
Theorem empty_history_predicts_zero (features : list string)
    (X_train_full : list (list value)) (y_train_full : string -> list value)
    (X_test_full : list (list value)) (target : string) :
  target ∈ targets_to_predict ->
  Forall (λ y, y = None) (y_train_full target) ->
  let zeros := replicate (length X_test_full) 0%Q in
  predict_target fit predict features X_train_full (y_train_full target)
    X_test_full target = Some zeros ∧
  (∀ predictions,
     training_loop fit predict features X_train_full y_train_full X_test_full
       targets_to_predict ∅ = Some predictions ->
     predictions !! target = Some zeros) ∧
  ((∀ t X y, is_Some (fit t X y)) ->
   ∃ predictions,
     training_loop fit predict features X_train_full y_train_full X_test_full
       targets_to_predict ∅ = Some predictions ∧
     predictions !! target = Some zeros).
Proof.
  intros Hin Hall zeros.
  pose proof (predict_target_empty features X_train_full (y_train_full target)
                X_test_full target Hall) as Hround.
  assert (∀ predictions,
     training_loop fit predict features X_train_full y_train_full X_test_full
       targets_to_predict ∅ = Some predictions ->
     predictions !! target = Some zeros) as Hloop.
  { intros predictions Hp. rewrite (training_loop_lookup _ _ _ _ _ _ _ _ Hp).
    by rewrite decide_True. }
  split_and!; [done|done|].
  intros Hfit.
  destruct (training_loop_total features X_train_full y_train_full X_test_full
              targets_to_predict ∅ Hfit) as [predictions Hp].
  exists predictions. split; [done|]. by apply Hloop.
Qed.

End TrainingFacts.

(** ** Region isolation and window causality *)

Section SortFilter.
Context {A K : Type} (key : A -> K) (cmp : K -> K -> comparison).
Context (Hord : CmpOrder cmp).
Context (P : A -> Prop) `{∀ x, Decision (P x)}.

Local Abbreviation le := (key_le key cmp).

Lemma insert_sorted_head x l :
  Forall (le x) l -> insert_sorted key cmp x l = x :: l.
Proof.
  intros Hall. destruct l as [|y l]; simpl; [done|].
  apply Forall_cons_1 in Hall as [Hxy _].
  apply (proj2 (key_leb_le key cmp x y)) in Hxy. by rewrite Hxy.
Qed.

Lemma filter_insert_sorted x l :
  StronglySorted le l ->
  filter P (insert_sorted key cmp x l)
  = if decide (P x) then insert_sorted key cmp x (filter P l) else filter P l.
Proof.
  induction 1 as [|y l Hs IH Hall]; simpl.
  - rewrite filter_cons. by case_decide.
  - destruct (key_leb key cmp x y) eqn:E.
    + rewrite filter_cons. case_decide as HPx; [|done].
      symmetry. apply insert_sorted_head.
      apply (proj1 (key_leb_le key cmp x y)) in E.
      assert (Forall (le x) (y :: l)) as Hxl.
      { constructor; [done|]. eapply Forall_impl; [|exact Hall].
        intros z Hz. by apply (le_transitive key cmp Hord) with y. }
      clear -Hxl. induction (y :: l) as [|z zs IHz]; [by rewrite filter_nil|].
      apply Forall_cons_1 in Hxl as [Hz Hzs]. rewrite filter_cons.
      case_decide; [constructor|]; auto.
    + rewrite filter_cons, IH, (filter_cons _ y).
      destruct (decide (P x)), (decide (P y)); simpl; by rewrite ?E.
Qed.

(** Sorting and selecting commute: the sort never reorders the rows it
    keeps around the rows it drops. *)
Lemma filter_stable_sort l :
  filter P (stable_sort key cmp l) = stable_sort key cmp (filter P l).
Proof.
  induction l as [|x l IH]; simpl; [done|].
  rewrite filter_insert_sorted by by apply stable_sort_sorted.
  rewrite filter_cons, IH. by case_decide.
Qed.

End SortFilter.

Lemma region_values_rows g (f : Row -> value) rs :
  region_values g (kingdom <$> rs) (f <$> rs)
  = f <$> filter (λ r, kingdom r = Some g) rs.
Proof.
  induction rs as [|r rs IH]; [done|].
  rewrite !fmap_cons, region_values_cons, filter_cons, IH.
  by case_decide.
Qed.

(** The series of one region in the sorted frame does not change when
    another region's rows are removed from the input. *)
Lemma region_series_without a b df (f : Row -> value) :
  a ≠ b ->
  f <$> filter (λ r, kingdom r = Some a) (rows (sort_values (without_region b df)))
  = f <$> filter (λ r, kingdom r = Some a) (rows (sort_values df)).
Proof.
  intros Hab. simpl. f_equal.
  rewrite !(filter_stable_sort row_key key_compare key_compare_order).
  f_equal. rewrite list_filter_filter. apply list_filter_iff.
  intros r. split; [by intros [? _]|]. intros Hr. split; [done|]. congruence.
Qed.

(** A region's lag entries are a function of the region's series. *)
Lemma region_lag_of_series g k keys vals keys' vals' :
  0 < k ->
  region_values g keys vals = region_values g keys' vals' ->
  region_values g keys (groupby_shift keys vals k)
  = region_values g keys' (groupby_shift keys' vals' k).
Proof.
  intros Hk Heq.
  assert (length (region_values g keys (groupby_shift keys vals k))
          = length (region_values g keys' (groupby_shift keys' vals' k))) as Hlen.
  { unfold groupby_shift. by rewrite !shift_scan_region_length, Heq. }
  apply list_eq. intros i.
  destruct (decide (i < length (region_values g keys vals))) as [Hi|Hi].
  - rewrite !groupby_shift_region by (done || by rewrite <- Heq).
    by rewrite Heq.
  - rewrite !lookup_ge_None_2; [done|..].
    + rewrite <- Hlen. unfold groupby_shift.
      rewrite shift_scan_region_length. lia.
    + unfold groupby_shift. rewrite shift_scan_region_length. lia.
Qed.

Section Isolation.
Variable ops : FloatOps.

Lemma region_derived_lag df col k g :
  col ∈ FEATURE_COLS_FOR_ENGINEERING -> col ∈ columns df -> k ∈ LAGS ->
  region_derived g (create_features ops df) (LagCol col k)
  = region_values g (kingdom <$> rows (sort_values df))
      (lag_column (sort_values df) col k).
Proof.
  intros Hc Hp Hk. unfold region_derived.
  by rewrite create_features_lag, frame_create_features.
Qed.

Lemma region_derived_diff df col x y g :
  (x, y) = (1, 7) ∨ (x, y) = (7, 30) ->
  col ∈ FEATURE_COLS_FOR_ENGINEERING -> col ∈ columns df ->
  region_derived g (create_features ops df) (LagDiffCol col x y)
  = region_values g (kingdom <$> rows (sort_values df))
      (diff_column (sort_values df) col x y).
Proof.
  intros Hxy Hc Hp. unfold region_derived.
  by rewrite create_features_diff, frame_create_features.
Qed.

(** The lag columns of region [a] are the same with and without the
    rows of another region [b]. *)
Lemma lag_region_isolated df col k a b :
  a ≠ b ->
  col ∈ FEATURE_COLS_FOR_ENGINEERING -> col ∈ columns df -> k ∈ LAGS ->
  region_derived a (create_features ops (without_region b df)) (LagCol col k)
  = region_derived a (create_features ops df) (LagCol col k).
Proof.
  intros Hab Hc Hp Hk.
  assert (0 < k) as Hpos by (unfold LAGS in Hk; set_unfold; lia).
  rewrite !region_derived_lag by done. unfold lag_column.
  apply region_lag_of_series; [done|].
  rewrite !region_values_rows. by apply region_series_without.
Qed.

Lemma zip_with_region g keys (f : value -> value -> value) a b :
  length a = length b ->
  region_values g keys (zip_with f a b)
  = zip_with f (region_values g keys a) (region_values g keys b).
Proof.
  revert a b. induction keys as [|k keys IH]; intros [|x a] [|y b] Hlen;
    try done; simpl in Hlen.
  cbn [zip_with]. rewrite !region_values_cons.
  case_decide; rewrite IH by lia; done.
Qed.

Lemma series_sub_region g keys a b :
  length a = length b ->
  region_values g keys (series_sub a b)
  = series_sub (region_values g keys a) (region_values g keys b).
Proof. apply zip_with_region. Qed.

(** So are the lag differences. *)
Lemma diff_region_isolated df col x y a b :
  a ≠ b ->
  (x, y) = (1, 7) ∨ (x, y) = (7, 30) ->
  col ∈ FEATURE_COLS_FOR_ENGINEERING -> col ∈ columns df ->
  region_derived a (create_features ops (without_region b df)) (LagDiffCol col x y)
  = region_derived a (create_features ops df) (LagDiffCol col x y).
Proof.
  intros Hab Hxy Hc Hp.
  assert (x ∈ LAGS ∧ y ∈ LAGS) as [Hx Hy].
  { unfold LAGS. destruct Hxy as [[= -> ->]|[= -> ->]]; split; in_list. }
  rewrite !region_derived_diff by done. unfold diff_column.
  rewrite !series_sub_region by (by rewrite !lag_column_length).
  rewrite <- !region_derived_lag by done.
  by rewrite !lag_region_isolated.
Qed.

End Isolation.

(** The first [n + 1] shifted entries read the first [n] raw entries
    only. *)
Lemma shift_scan_take p seen keys vals vals' n :
  take n vals = take n vals' -> length vals = length vals' ->
  take (S n) (shift_scan (S p) seen keys vals)
  = take (S n) (shift_scan (S p) seen keys vals').
Proof.
  revert seen vals vals' n.
  induction keys as [|k keys IH]; intros seen [|v vals] [|v' vals'] n Ht Hl;
    try done.
  simpl in Hl. destruct n as [|n].
  - destruct k; simpl; by rewrite !take_0.
  - simpl in Ht. injection Ht as -> Ht.
    destruct k; simpl; f_equal; apply IH; (done || lia).
Qed.

(** The rolling statistic at a row does not read the row's own raw
    value: two columns that differ at row [i] only give the same
    statistic at row [i]. *)
Lemma rolling_ignores_own_value keys vals vals' w m agg i :
  length vals = length vals' ->
  (∀ j, j ≠ i -> vals !! j = vals' !! j) ->
  rolling (groupby_shift keys vals 1) w m agg !! i
  = rolling (groupby_shift keys vals' 1) w m agg !! i.
Proof.
  intros Hl Hother.
  assert (take (S i) (groupby_shift keys vals 1)
          = take (S i) (groupby_shift keys vals' 1)) as Htake.
  { apply shift_scan_take; [|done]. apply list_eq. intros j.
    destruct (decide (j < i)) as [Hj|Hj].
    - rewrite !lookup_take_lt by done. apply Hother. lia.
    - rewrite !lookup_take_ge by lia. done. }
  unfold rolling. rewrite !list_lookup_imap. unfold window_at.
  rewrite Htake.
  rewrite <- (lookup_take_lt (groupby_shift keys vals 1) (S i) i) by lia.
  rewrite <- (lookup_take_lt (groupby_shift keys vals' 1) (S i) i) by lia.
  by rewrite Htake.
Qed.

Section Causality.
Variable ops : FloatOps.

(** On two sorted frames with the same kingdoms that differ in one
    cell of [col] at row [i], every rolling column of [col] has the
    same entry at row [i]. *)
Lemma roll_column_ignores_own_value df df' col w s i :
  kingdom <$> rows df = kingdom <$> rows df' ->
  (∀ j, j ≠ i ->
     (λ r, cell r col) <$> rows df !! j = (λ r, cell r col) <$> rows df' !! j) ->
  roll_column ops df col w s !! i = roll_column ops df' col w s !! i.
Proof.
  intros Hk Hother. unfold roll_column, lag_column. rewrite Hk.
  apply rolling_ignores_own_value.
  - rewrite !length_fmap.
    by rewrite <- (length_fmap kingdom (rows df)), Hk, length_fmap.
  - intros j Hj. rewrite !list_lookup_fmap. by apply Hother.
Qed.

(** C2 at a region boundary.  In [two_regions] the first row of
    kingdom "B" has no earlier row of its own, so the shifted series of
    "B" holds no observation there; the 3-row rolling mean of the code
    is nevertheless defined, from the last rows of kingdom "A". *)
Theorem rolling_window_leaves_region :
  let out := create_features ops two_regions in
  region_base "B" out "Radiation" = [Some 5%Q] ∧
  region_derived "B" out (LagCol "Radiation" 1) = [None] ∧
  region_derived "B" out (RollCol "Radiation" 3 Mean) = [Some 1%Q] ∧
  roll_in_region ops "B" (frame out) "Radiation" 3 Mean = [None].
Proof. vm_compute. done. Qed.

(** C3 at a region boundary.  In [two_regions] the trailing window of
    kingdom "B"'s shifted series holds no observation at B's row, fewer
    than the [max(1, 3 // 2) = 1] that the rule asks for; the rolling
    mean, median, minimum and maximum of the code are nevertheless
    defined there, from the rows of kingdom "A". *)
Theorem rolling_min_periods_counts_other_region :
  let out := create_features ops two_regions in
  let shifted_B := region_derived "B" out (LagCol "Radiation" 1) in
  observations (window_at 3 shifted_B 0) = [] ∧
  Nat.max 1 (3 / 2) = 1 ∧
  region_derived "B" out (RollCol "Radiation" 3 Mean) = [Some 1%Q] ∧
  region_derived "B" out (RollCol "Radiation" 3 Median) = [Some 1%Q] ∧
  region_derived "B" out (RollCol "Radiation" 3 Min) = [Some 1%Q] ∧
  region_derived "B" out (RollCol "Radiation" 3 Max) = [Some 1%Q].
Proof. vm_compute. done. Qed.

(** C4 for the rolling columns.  The 3-row rolling mean at the row of
    kingdom "B" is 1 when the rows of kingdom "A" are in the frame and
    NaN when they are removed. *)
Theorem rolling_depends_on_other_region :
  region_derived "B" (create_features ops two_regions)
    (RollCol "Radiation" 3 Mean) = [Some 1%Q] ∧
  region_derived "B" (create_features ops (without_region "A" two_regions))
    (RollCol "Radiation" 3 Mean) = [None].
Proof. vm_compute. done. Qed.

End Causality.

(** ** The theorems at sample inputs *)

Lemma lag_is_region_shift_witness :
  "Radiation" ∈ FEATURE_COLS_FOR_ENGINEERING ∧
  "Radiation" ∈ columns two_regions ∧ 1 ∈ LAGS ∧
  region_derived "A" (create_features sample_ops two_regions)
    (LagCol "Radiation" 1) !! 1 = Some (Some 1%Q).
Proof.
  assert ("Radiation" ∈ FEATURE_COLS_FOR_ENGINEERING) as H1 by in_list.
  assert ("Radiation" ∈ columns two_regions) as H2 by in_list.
  assert (1 ∈ LAGS) as H3 by in_list.
  split_and!; [done..|].
  destruct (lag_is_region_shift sample_ops two_regions "Radiation" 1 "A"
              H1 H2 H3) as (_ & Hv & _).
  rewrite Hv; [reflexivity|]. vm_compute. lia.
Defined.

Lemma rolling_min_periods_in_frame_witness :
  "Radiation" ∈ FEATURE_COLS_FOR_ENGINEERING ∧
  "Radiation" ∈ columns two_regions ∧ 3 ∈ ROLLING_WINDOWS ∧
  2 < length (rows two_regions) ∧
  ∃ rc v,
    derived (create_features sample_ops two_regions) (RollCol "Radiation" 3 Std)
    = Some rc ∧ rc !! 2 = Some v ∧ ¬ is_Some v.
Proof.
  assert ("Radiation" ∈ FEATURE_COLS_FOR_ENGINEERING) as H1 by in_list.
  assert ("Radiation" ∈ columns two_regions) as H2 by in_list.
  assert (3 ∈ ROLLING_WINDOWS) as H3 by in_list.
  assert (2 < length (rows two_regions)) as H4 by (simpl; lia).
  split_and!; [done..|].
  destruct (rolling_min_periods_in_frame sample_ops two_regions "Radiation" 3 Std 2
              H1 H2 H3 H4) as (rc & v & Hrc & Hv & _ & _ & Hstd).
  exists rc, v. split_and!; [done..|].
  intros Hsome. apply Hstd in Hsome; [|vm_compute; lia|done].
  vm_compute in Hsome. lia.
Defined.

Lemma kelvin_rule_witness :
  "Avg_Temperature" ∈ temp_cols ∧ "Avg_Temperature" ∈ columns mixed_units ∧
  ∃ r', rows (convert_temperatures mixed_units) !! 0 = Some r' ∧
        cell r' "Avg_Temperature" = Some (300 - (27315 # 100))%Q.
Proof.
  assert ("Avg_Temperature" ∈ temp_cols) as H1 by in_list.
  assert ("Avg_Temperature" ∈ columns mixed_units) as H2 by in_list.
  split_and!; [done..|].
  destruct (kelvin_rule mixed_units "Avg_Temperature" 0
              (sample_row "A" 1 false [("Avg_Temperature", 300%Q)])
              H1 H2 eq_refl) as (r' & Hr' & Hhot & _).
  exists r'. split; [done|]. by apply Hhot.
Defined.

Lemma lag_diff_is_difference_witness :
  "Radiation" ∈ FEATURE_COLS_FOR_ENGINEERING ∧
  "Radiation" ∈ columns eight_days ∧
  ∃ d17 d730,
    derived (create_features sample_ops eight_days) (LagDiffCol "Radiation" 1 7)
    = Some d17 ∧
    derived (create_features sample_ops eight_days) (LagDiffCol "Radiation" 7 30)
    = Some d730 ∧
    d17 !! 7 = Some (Some 6%Q) ∧ d730 !! 7 = Some None.
Proof.
  assert ("Radiation" ∈ FEATURE_COLS_FOR_ENGINEERING) as H1 by in_list.
  assert ("Radiation" ∈ columns eight_days) as H2 by in_list.
  split_and!; [done..|].
  destruct (lag_diff_is_difference sample_ops eight_days "Radiation" H1 H2)
    as (lag1 & lag7 & lag30 & d17 & d730 & E1 & E7 & E30 & E17 & E730 & _ & _ & Hv).
  exists d17, d730. split_and!; [done..| |].
  - vm_compute in E1, E7, E30.
    injection E1 as <-. injection E7 as <-. injection E30 as <-.
    by apply (Hv 7 (Some 10%Q) (Some 4%Q) None).
  - vm_compute in E1, E7, E30.
    injection E1 as <-. injection E7 as <-. injection E30 as <-.
    by apply (Hv 7 (Some 10%Q) (Some 4%Q) None).
Defined.

Lemma empty_history_predicts_zero_witness :
  "Rain_Amount" ∈ targets_to_predict ∧
  Forall (λ y : value, y = None) [None; None] ∧
  predict_target (Model := unit) (λ _ _ _, None) (λ _ _, []) ["month_sin"]
    [[Some 1%Q]; [Some 2%Q]] [None; None] [[Some 3%Q]; [None]; [Some 4%Q]]
    "Rain_Amount"
  = Some [0%Q; 0%Q; 0%Q].
Proof.
  assert ("Rain_Amount" ∈ targets_to_predict) as H1 by in_list.
  assert (Forall (λ y : value, y = None) [None; None]) as H2
    by (repeat constructor).
  split_and!; [done..|].
  by destruct (empty_history_predicts_zero (Model := unit)
                 (λ _ _ _, None) (λ _ _, []) ["month_sin"]
                 [[Some 1%Q]; [Some 2%Q]] (λ _, [None; None])
                 [[Some 3%Q]; [None]; [Some 4%Q]] "Rain_Amount" H1 H2)
    as (Hround & _).
Defined.

Lemma coords_are_first_defined_witness :
  rows late_latitude !! 2 = Some (sample_row "A" 3 true []) ∧
  ∃ r', rows (map_locations late_latitude) !! 2 = Some r' ∧
        cell r' "latitude" = Some 2%Q ∧ cell r' "longitude" = Some 1%Q.
Proof.
  split; [done|].
  destruct (coords_are_first_defined late_latitude 2 (sample_row "A" 3 true [])
              eq_refl) as (r' & Hr' & _ & _ & Hlat & Hlon & _).
  exists r'. split; [done|]. by rewrite Hlat, Hlon.
Defined.

(** ** smape *)

Lemma smape_ratio_sym t y : smape_ratio t y = smape_ratio y t.
Proof.
  unfold smape_ratio.
  assert (Qabs (y - t) = Qabs (t - y)) as ->.
  { destruct t as [tn td], y as [yn yd]. unfold Qminus, Qplus, Qopp, Qabs.
    simpl. f_equal; [lia|apply Pos.mul_comm]. }
  assert ((Qabs t + Qabs y)%Q = (Qabs y + Qabs t)%Q) as ->.
  { destruct t as [tn td], y as [yn yd]. unfold Qplus, Qabs.
    simpl. f_equal; [lia|apply Pos.mul_comm]. }
  done.
Qed.

Lemma nan_ratio_swap p : nan_ratio (prod_swap p) = nan_ratio p.
Proof.
  destruct p as [[t|] [y|]]; simpl; try done. by rewrite smape_ratio_sym.
Qed.

Lemma zip_swap {A B} (a : list A) (b : list B) :
  zip b a = prod_swap <$> zip a b.
Proof.
  revert b. induction a as [|x a IH]; intros [|y b]; simpl; try done.
  f_equal. apply IH.
Qed.

Lemma broadcast_sym (a b : list value) :
  broadcast b a
  = option_map (λ l : list (value * value), prod_swap <$> l) (broadcast a b).
Proof.
  unfold broadcast.
  destruct (decide (length a = length b)) as [Hl|Hl].
  - rewrite decide_True by done. simpl. f_equal. apply zip_swap.
  - rewrite decide_False by done.
    destruct a as [|x [|x' a]], b as [|y [|y' b]]; simpl in *; try done;
      f_equal; by rewrite <- list_fmap_compose.
Qed.

Lemma Qlen_cons x xs : (Qlen (x :: xs) == 1 + Qlen xs)%Q.
Proof.
  unfold Qlen. simpl length. rewrite Nat2Z.inj_succ, <- Z.add_1_l.
  by rewrite inject_Z_plus.
Qed.

Lemma Qlen_nonneg xs : (0 <= Qlen xs)%Q.
Proof.
  unfold Qlen. change 0%Q with (inject_Z 0). rewrite <- Zle_Qle. lia.
Qed.

Lemma Qsum_bounds xs (lo hi : Q) :
  Forall (λ x, (lo <= x <= hi)%Q) xs ->
  (lo * Qlen xs <= Qsum xs <= hi * Qlen xs)%Q.
Proof.
  induction 1 as [|x xs [Hlo Hhi] _ IH].
  - change (lo * 0 <= 0 <= hi * 0)%Q. lra.
  - rewrite Qlen_cons. change (Qsum (x :: xs)) with (x + Qsum xs)%Q. lra.
Qed.

Lemma mean_bounds xs (lo hi : Q) :
  xs ≠ [] -> Forall (λ x, (lo <= x <= hi)%Q) xs ->
  (lo <= Qsum xs / Qlen xs <= hi)%Q.
Proof.
  intros Hne Hall. pose proof (Qsum_bounds xs lo hi Hall) as [Hlo Hhi].
  assert (0 < Qlen xs)%Q as Hpos.
  { destruct xs as [|x xs]; [done|]. rewrite Qlen_cons.
    pose proof (Qlen_nonneg xs). lra. }
  split.
  - apply Qle_shift_div_l; [done|]. lra.
  - apply Qle_shift_div_r; [done|]. lra.
Qed.

Lemma smape_ratio_bounds t y : (0 <= smape_ratio t y <= 2)%Q.
Proof.
  unfold smape_ratio.
  destruct (Qle_bool (1 # 1000000000) ((Qabs t + Qabs y) / 2)) eqn:E; [|lra].
  apply Qle_bool_iff in E.
  set (d := ((Qabs t + Qabs y) / 2)%Q) in *.
  assert (0 < d)%Q as Hd by lra.
  assert (2 * d == Qabs t + Qabs y)%Q as H2 by (unfold d; field).
  split.
  - apply Qle_shift_div_l; [done|]. pose proof (Qabs_nonneg (y - t)). lra.
  - apply Qle_shift_div_r; [done|]. rewrite H2.
    pose proof (Qabs_triangle y (- t)) as Htri. rewrite Qabs_opp in Htri.
    unfold Qminus. lra.
Qed.

Lemma smape_ratio_same y : (smape_ratio y y == 0)%Q.
Proof.
  unfold smape_ratio.
  destruct (Qle_bool (1 # 1000000000) ((Qabs y + Qabs y) / 2)); [|reflexivity].
  assert (y - y == 0)%Q as H by ring.
  rewrite H. reflexivity.
Qed.

(** The defined ratios of an array of pairs. *)
Lemma mapM_nan_ratio pairs xs :
  mapM id (nan_ratio <$> pairs) = Some xs ->
  Forall2 (λ p x, ∃ t y, p = (Some t, Some y) ∧ x = smape_ratio t y) pairs xs.
Proof.
  rewrite mapM_Some, Forall2_fmap_l. apply Forall2_impl.
  intros [[t|] [y|]] x; simpl; intros [= <-]; eauto.
Qed.

Lemma np_mean_Some l m :
  np_mean l = Some m ->
  ∃ xs, l ≠ [] ∧ mapM id l = Some xs ∧ m = (Qsum xs / Qlen xs)%Q.
Proof.
  unfold np_mean. destruct l as [|v l]; [done|].
  destruct (mapM id (v :: l)) as [xs|] eqn:E; [|done].
  simpl. intros [= <-]. by exists xs.
Qed.

(** X14. Whenever [smape] returns a number, that number lies between
    0 and 200; the denominator guard makes the ratio of two zeros 0
    instead of dividing by zero. *)
Theorem smape_between_0_and_200 (y_true y_pred : list value) (q : Q) :
  smape y_true y_pred = Some (Some q) -> (0 <= q <= 200)%Q.
Proof.
  unfold smape. destruct (broadcast y_true y_pred) as [pairs|]; [|done].
  simpl. destruct (np_mean (nan_ratio <$> pairs)) as [m|] eqn:Em; [|done].
  simpl. intros [= <-].
  apply np_mean_Some in Em as (xs & Hne & Hxs & ->).
  apply mapM_nan_ratio in Hxs.
  assert (Forall (λ x, (0 <= x <= 2)%Q) xs) as Hall.
  { clear Hne. induction Hxs as [|p x ps xs (t & y & _ & ->) _ IH]; constructor;
      [apply smape_ratio_bounds|done]. }
  assert (xs ≠ []) as Hxne.
  { intros ->. apply Forall2_nil_inv_r in Hxs. by destruct pairs. }
  pose proof (mean_bounds xs 0 2 Hxne Hall). lra.
Qed.

(** X15. [smape] is symmetric in its two arguments: swapping truth and
    prediction gives the same result, be it a number, NaN or the shape
    error. *)
Theorem smape_symmetric (y_true y_pred : list value) :
  smape y_true y_pred = smape y_pred y_true.
Proof.
  unfold smape. rewrite (broadcast_sym y_pred y_true).
  destruct (broadcast y_pred y_true) as [pairs|]; [|done]. simpl.
  do 3 f_equal. rewrite <- list_fmap_compose. apply list_fmap_ext.
  intros i p _. simpl. apply nan_ratio_swap.
Qed.

Lemma np_mean_is_Some l :
  is_Some (np_mean l) <-> l ≠ [] ∧ Forall is_Some l.
Proof.
  unfold np_mean. destruct l as [|v l].
  - split; [by intros [? ?]|]. intros [H _]. by destruct H.
  - destruct (mapM id (v :: l)) as [xs|] eqn:E.
    + split; [|done]. intros _. split; [done|].
      assert (is_Some (mapM id (v :: l))) as H by (by rewrite E).
      apply mapM_is_Some in H. eapply Forall_impl; [|exact H]. done.
    + split; [by intros []|]. intros [_ Hall].
      assert (is_Some (mapM id (v :: l))) as [xs Hxs]; [|congruence].
      apply mapM_is_Some. eapply Forall_impl; [|exact Hall]. done.
Qed.

Lemma nan_ratio_is_Some p : is_Some (nan_ratio p) <-> is_Some p.1 ∧ is_Some p.2.
Proof.
  destruct p as [[t|] [y|]]; simpl; split; try done; by intros [[] []].
Qed.

Lemma Forall_zip_is_Some (a b : list value) :
  length a = length b ->
  Forall (λ p : value * value, is_Some p.1 ∧ is_Some p.2) (zip a b)
  <-> Forall is_Some a ∧ Forall is_Some b.
Proof.
  revert b. induction a as [|x a IH]; intros [|y b] Hl; simpl in Hl; try done.
  simpl. rewrite !Forall_cons_iff, IH by lia. simpl. tauto.
Qed.

(** In exact arithmetic every pair of numbers has a ratio. *)
Lemma smape_number_iff (y_true y_pred : list value) :
  length y_true = length y_pred ->
  (∃ q, smape y_true y_pred = Some (Some q))
  <-> y_true ≠ [] ∧ Forall is_Some y_true ∧ Forall is_Some y_pred.
Proof.
  intros Hl. unfold smape, broadcast. rewrite decide_True by done. simpl.
  assert (is_Some (np_mean (nan_ratio <$> zip y_true y_pred))
          <-> y_true ≠ [] ∧ Forall is_Some y_true ∧ Forall is_Some y_pred)
    as Hiff.
  { rewrite np_mean_is_Some, Forall_fmap.
    assert (Forall (is_Some ∘ nan_ratio) (zip y_true y_pred)
            <-> Forall (λ p : value * value, is_Some p.1 ∧ is_Some p.2)
                  (zip y_true y_pred)) as ->
      by (apply Forall_iff; intros p; apply nan_ratio_is_Some).
    rewrite Forall_zip_is_Some by done.
    destruct y_true as [|x a], y_pred as [|y b]; simpl in *; try done;
      split; intros [? ?]; done. }
  rewrite <- Hiff.
  destruct (np_mean (nan_ratio <$> zip y_true y_pred)) as [m|]; simpl.
  - split; [done|]. intros _. by eexists.
  - split; [by intros [q [=]]|by intros []].
Qed.

Lemma stretched_is_Some (x : value) (b : list value) :
  is_Some (np_mean (nan_ratio <$> ((λ y, (x, y)) <$> b))) ->
  b ≠ [] ∧ is_Some x ∧ Forall is_Some b.
Proof.
  rewrite np_mean_is_Some, Forall_fmap, Forall_fmap. intros [Hne Hall].
  assert (b ≠ []) as Hb by (by destruct b).
  split; [done|].
  assert (Forall (λ y : value, is_Some x ∧ is_Some y) b) as Hxy.
  { eapply Forall_impl; [|exact Hall]. intros y Hy.
    by apply nan_ratio_is_Some in Hy. }
  split.
  - destruct b as [|y b]; [done|]. by inversion Hxy as [|? ? [? _] _].
  - eapply Forall_impl; [|exact Hxy]. by intros y [_ ?].
Qed.

Lemma stretched_is_Some_r (a : list value) (y : value) :
  is_Some (np_mean (nan_ratio <$> ((λ x, (x, y)) <$> a))) ->
  a ≠ [] ∧ Forall is_Some a ∧ is_Some y.
Proof.
  rewrite np_mean_is_Some, Forall_fmap, Forall_fmap. intros [Hne Hall].
  assert (a ≠ []) as Ha by (by destruct a).
  split; [done|].
  assert (Forall (λ x : value, is_Some x ∧ is_Some y) a) as Hxy.
  { eapply Forall_impl; [|exact Hall]. intros x Hx.
    by apply nan_ratio_is_Some in Hx. }
  split.
  - eapply Forall_impl; [|exact Hxy]. by intros x [? _].
  - destruct a as [|x a]; [done|]. by inversion Hxy as [|? ? [_ ?] _].
Qed.

(** X16. When [smape] returns a number, neither array is empty and
    neither holds a NaN: the mean of an empty array is NaN, and one
    NaN entry makes the whole score NaN, also where a one-element
    array is stretched to the other's length.  Arrays whose lengths
    differ are an error unless one of them has a single entry. *)
Theorem smape_nan_and_shape (y_true y_pred : list value) :
  (smape y_true y_pred = None
   <-> length y_true ≠ length y_pred ∧ length y_true ≠ 1 ∧ length y_pred ≠ 1) ∧
  ((∃ q, smape y_true y_pred = Some (Some q)) ->
   y_true ≠ [] ∧ y_pred ≠ [] ∧
   Forall is_Some y_true ∧ Forall is_Some y_pred).
Proof.
  split.
  - unfold smape, broadcast.
    destruct (decide (length y_true = length y_pred)) as [Hl|Hl].
    + simpl. split; [done|]. by intros [? _].
    + destruct y_true as [|x [|x' a]], y_pred as [|y [|y' b]]; simpl in *;
        try done; split; try done; intros (_ & H1 & H2); lia.
  - intros Hq.
    destruct (decide (length y_true = length y_pred)) as [Hl|Hl].
    + apply smape_number_iff in Hq as (Hne & Ht & Hp); [|done].
      split_and!; try done. intros ->. by destruct y_true.
    + destruct Hq as [q Hq]. unfold smape, broadcast in Hq.
      rewrite decide_False in Hq by done.
      assert (∀ pairs, Some ((λ m : Q, (m * 100)%Q) <$> np_mean (nan_ratio <$> pairs))
                       = Some (Some q) ->
                       is_Some (np_mean (nan_ratio <$> pairs))) as Hmean.
      { intros pairs Hp. by destruct (np_mean (nan_ratio <$> pairs)). }
      destruct y_true as [|x [|x' a]].
      * destruct y_pred as [|y [|y' b]]; [done| |done].
        cbn [mbind option_bind] in Hq. apply Hmean in Hq.
        by apply stretched_is_Some_r in Hq as [? _].
      * cbn [mbind option_bind] in Hq. apply Hmean in Hq.
        apply stretched_is_Some in Hq as (Hb & Hx & Hall).
        split_and!; try done. by repeat constructor.
      * destruct y_pred as [|y [|y' b]]; [done| |done].
        cbn [mbind option_bind] in Hq. apply Hmean in Hq.
        apply stretched_is_Some_r in Hq as (Ha & Hall & Hy).
        split_and!; try done. by repeat constructor.
Qed.

(** X17. A prediction that equals the truth scores 0: on a non-empty
    array without NaN, [smape] of the array with itself is a number
    equal to 0, also where entries are 0. *)
Theorem smape_of_equal_arrays (y : list value) :
  y ≠ [] -> Forall is_Some y ->
  ∃ q, smape y y = Some (Some q) ∧ (q == 0)%Q.
Proof.
  intros Hne Hall.
  destruct (proj2 (smape_number_iff y y eq_refl)) as [q Hq]; [done|].
  exists q. split; [done|].
  unfold smape, broadcast in Hq. rewrite decide_True in Hq by done.
  simpl in Hq.
  destruct (np_mean (nan_ratio <$> zip y y)) as [m|] eqn:Em; [|done].
  simpl in Hq. injection Hq as <-.
  apply np_mean_Some in Em as (xs & Hne' & Hxs & ->).
  apply mapM_nan_ratio in Hxs.
  assert (Forall (λ x, (0 <= x <= 0)%Q) xs) as Hzero.
  { clear Hne Hne' Hall. revert xs Hxs.
    induction y as [|v y IH]; intros xs Hxs; simpl in Hxs.
    - apply Forall2_nil_inv_l in Hxs as ->. constructor.
    - apply Forall2_cons_inv_l in Hxs as (x & xs' & (t & t' & Heq & ->) & Hxs & ->).
      injection Heq as Hv1 Hv2. subst v. injection Hv2 as <-.
      constructor; [|by apply IH].
      pose proof (smape_ratio_same t). lra. }
  assert (xs ≠ []) as Hxne.
  { intros ->. apply Forall2_nil_inv_r in Hxs. by destruct y. }
  pose proof (mean_bounds xs 0 0 Hxne Hzero). lra.
Qed.

(** * Further properties of the pipeline *)

(** ** Which columns feature engineering adds *)

Section EngineeredColumns.
Variable ops : FloatOps.

Lemma derived_add_rolling_other col shifted df window name :
  (∀ c w s, name ≠ RollCol c w s) ->
  derived (add_rolling ops col shifted df window) name = derived df name.
Proof.
  intros Hname. unfold add_rolling.
  rewrite !derived_set_column_ne; [done|..]; intros H; by eapply Hname.
Qed.

Lemma derived_foldl_add_rolling_other col shifted windows df name :
  (∀ c w s, name ≠ RollCol c w s) ->
  derived (foldl (add_rolling ops col shifted) df windows) name = derived df name.
Proof.
  intros Hname. revert df.
  induction windows as [|w ws IH]; intros df; simpl; [done|].
  by rewrite IH, derived_add_rolling_other.
Qed.

Lemma derived_foldl_add_lag_roll_other cols df name :
  (∀ c k, name ≠ LagCol c k) -> (∀ c w s, name ≠ RollCol c w s) ->
  derived (foldl (add_lag_roll ops) df cols) name = derived df name.
Proof.
  intros Hl Hr. revert df.
  induction cols as [|x xs IH]; intros df; simpl; [done|].
  rewrite IH. unfold add_lag_roll. case_decide; [|done].
  by rewrite derived_foldl_add_rolling_other, derived_foldl_set_lag_other.
Qed.

Lemma derived_add_lag_diff_other df col name :
  (∀ c, name ≠ LagDiffCol c 1 7) -> (∀ c, name ≠ LagDiffCol c 7 30) ->
  derived (add_lag_diff df col) name = derived df name.
Proof.
  intros H1 H2. unfold add_lag_diff. case_decide; [|done].
  destruct (derived df (LagCol col 1)), (derived df (LagCol col 7)),
    (derived df (LagCol col 30));
    rewrite ?derived_set_column_ne; try done;
    intros H'; (by eapply H1) || (by eapply H2).
Qed.

Lemma derived_foldl_add_lag_diff_other cols df name :
  (∀ c, name ≠ LagDiffCol c 1 7) -> (∀ c, name ≠ LagDiffCol c 7 30) ->
  derived (foldl add_lag_diff df cols) name = derived df name.
Proof.
  intros H1 H2. revert df.
  induction cols as [|x xs IH]; intros df; simpl; [done|].
  by rewrite IH, derived_add_lag_diff_other.
Qed.

(** A difference column of a feature that the second loop does not
    reach stays as it was. *)
Lemma derived_foldl_add_lag_diff_skip cols df c a b :
  c ∉ cols ∨ c ∉ columns (frame df) ->
  derived (foldl add_lag_diff df cols) (LagDiffCol c a b)
  = derived df (LagDiffCol c a b).
Proof.
  revert df. induction cols as [|x xs IH]; intros df Hskip; simpl; [done|].
  rewrite IH.
  2:{ rewrite frame_add_lag_diff. destruct Hskip as [H|H]; [left|by right].
      by apply not_elem_of_cons in H as [_ ?]. }
  unfold add_lag_diff. case_decide as Hx; [|done].
  assert (x ≠ c) as Hne.
  { intros ->. destruct Hskip as [H|H]; [apply H; by left|by apply H]. }
  destruct (derived df (LagCol x 1)), (derived df (LagCol x 7)),
    (derived df (LagCol x 30));
    rewrite ?derived_set_column_ne; try done; congruence.
Qed.

Lemma create_features_wind df :
  "Wind_Direction" ∈ columns df ->
  derived (create_features ops df) WindSin
  = Some ((λ r, wind_component ops np_sin (cell r "Wind_Direction"))
            <$> rows (sort_values df)) ∧
  derived (create_features ops df) WindCos
  = Some ((λ r, wind_component ops np_cos (cell r "Wind_Direction"))
            <$> rows (sort_values df)).
Proof.
  intros Hw. unfold create_features, add_wind_sin_cos.
  rewrite frame_foldl_add_lag_diff, frame_foldl_add_lag_roll.
  cbn [frame sort_values columns]. rewrite decide_True by done.
  rewrite derived_set_column_ne by done. rewrite !derived_set_column_eq.
  unfold base_column.
  rewrite frame_foldl_add_lag_diff, frame_foldl_add_lag_roll.
  cbn [frame]. by rewrite <- !list_fmap_compose.
Qed.

Lemma create_features_wind_absent df name :
  name = WindSin ∨ name = WindCos ->
  "Wind_Direction" ∉ columns df ->
  derived (create_features ops df) name = None.
Proof.
  intros Hname Hw. unfold create_features, add_wind_sin_cos.
  rewrite frame_foldl_add_lag_diff, frame_foldl_add_lag_roll.
  cbn [frame sort_values columns]. rewrite decide_False by done.
  rewrite derived_foldl_add_lag_diff_other, derived_foldl_add_lag_roll_other;
    by destruct Hname as [-> | ->].
Qed.

Lemma derived_create_features_lag_value df c k :
  derived (create_features ops df) (LagCol c k)
  = if decide (c ∈ FEATURE_COLS_FOR_ENGINEERING ∧ c ∈ columns df ∧ k ∈ LAGS)
    then Some (lag_column (sort_values df) c k) else None.
Proof.
  unfold create_features. rewrite derived_add_wind_other by done.
  rewrite derived_foldl_add_lag_diff_lag, derived_foldl_add_lag_roll_lag.
  reflexivity.
Qed.

Lemma derived_create_features_roll_value df c w s :
  derived (create_features ops df) (RollCol c w s)
  = if decide (c ∈ FEATURE_COLS_FOR_ENGINEERING ∧ c ∈ columns df
               ∧ w ∈ ROLLING_WINDOWS)
    then Some (roll_column ops (sort_values df) c w s) else None.
Proof.
  unfold create_features. rewrite derived_add_wind_other by done.
  rewrite derived_foldl_add_lag_diff_roll, derived_foldl_add_lag_roll_roll.
  reflexivity.
Qed.

Lemma derived_create_features_diff_none df c a b :
  ¬ (c ∈ FEATURE_COLS_FOR_ENGINEERING ∧ c ∈ columns df
     ∧ ((a, b) = (1, 7) ∨ (a, b) = (7, 30))) ->
  derived (create_features ops df) (LagDiffCol c a b) = None.
Proof.
  intros Hn. unfold create_features. rewrite derived_add_wind_other by done.
  destruct (decide (c ∈ FEATURE_COLS_FOR_ENGINEERING ∧ c ∈ columns df))
    as [[Hc Hp]|Hn'].
  - rewrite derived_foldl_add_lag_diff_other.
    + by rewrite derived_foldl_add_lag_roll_other.
    + intros c' [= -> -> ->]. apply Hn. auto.
    + intros c' [= -> -> ->]. apply Hn. auto.
  - rewrite derived_foldl_add_lag_diff_skip.
    + by rewrite derived_foldl_add_lag_roll_other.
    + rewrite frame_foldl_add_lag_roll.
      destruct (decide (c ∈ FEATURE_COLS_FOR_ENGINEERING)); [|by left].
      right. intros Hp. apply Hn'. split; [done|exact Hp].
Qed.

Lemma derived_create_features_iff (df : DataFrame) (name : colname) :
  is_Some (derived (create_features ops df) name)
  <-> is_engineered (columns df) name.
Proof.
  destruct name as [c k|c w s|c a b| |]; cbn [is_engineered].
  - rewrite derived_create_features_lag_value.
    case_decide; split; (done || by intros []).
  - rewrite derived_create_features_roll_value.
    case_decide; split; (done || by intros []).
  - split.
    + intros Hsome.
      destruct (decide (c ∈ FEATURE_COLS_FOR_ENGINEERING ∧ c ∈ columns df
                        ∧ ((a, b) = (1, 7) ∨ (a, b) = (7, 30)))) as [H|H];
        [done|].
      rewrite derived_create_features_diff_none in Hsome by done.
      by destruct Hsome.
    + intros (Hc & Hp & Hab). by rewrite create_features_diff.
  - split.
    + intros Hsome. destruct (decide ("Wind_Direction" ∈ columns df)); [done|].
      rewrite create_features_wind_absent in Hsome by auto. by destruct Hsome.
    + intros Hw. by rewrite (proj1 (create_features_wind df Hw)).
  - split.
    + intros Hsome. destruct (decide ("Wind_Direction" ∈ columns df)); [done|].
      rewrite create_features_wind_absent in Hsome by auto. by destruct Hsome.
    + intros Hw. by rewrite (proj2 (create_features_wind df Hw)).
Qed.

(** X1. [create_features] adds exactly the columns of its three
    families: a lag, rolling or lag-difference column exists exactly
    for a feature of [FEATURE_COLS_FOR_ENGINEERING] that is a numeric
    column of the input and for a lag of [LAGS], a window of
    [ROLLING_WINDOWS], or the pairs (1, 7) and (7, 30); the wind sine
    and cosine exist exactly when [Wind_Direction] is a numeric column.
    A feature that is absent or not numeric gets no column at all. *)
Theorem engineered_columns_exist (df : DataFrame) (name : colname) :
  is_Some (derived (create_features ops df) name)
  <-> is_engineered (columns df) name.
Proof. apply derived_create_features_iff. Qed.

Lemma series_sub_length a b : length (series_sub a b) = length a `min` length b.
Proof. apply length_zip_with. Qed.

Lemma derived_create_features_length df name l :
  derived (create_features ops df) name = Some l ->
  length l = length (rows df).
Proof.
  intros Hl.
  assert (is_engineered (columns df) name) as Heng.
  { apply derived_create_features_iff. by rewrite Hl. }
  destruct name as [c k|c w s|c a b| |]; cbn [is_engineered] in Heng.
  - destruct Heng as (Hc & Hp & Hk).
    rewrite create_features_lag in Hl by done. injection Hl as <-.
    by rewrite lag_column_length, sort_values_length.
  - destruct Heng as (Hc & Hp & Hw).
    rewrite create_features_roll in Hl by done. injection Hl as <-.
    unfold roll_column, rolling.
    by rewrite length_imap, lag_column_length, sort_values_length.
  - destruct Heng as (Hc & Hp & Hab).
    rewrite create_features_diff in Hl by done. injection Hl as <-.
    unfold diff_column.
    rewrite series_sub_length, !lag_column_length, sort_values_length. lia.
  - destruct (create_features_wind df Heng) as [Hs _].
    rewrite Hs in Hl. injection Hl as <-.
    rewrite length_fmap. apply sort_values_length.
  - destruct (create_features_wind df Heng) as [_ Hc].
    rewrite Hc in Hl. injection Hl as <-.
    rewrite length_fmap. apply sort_values_length.
Qed.

(** X2. Every column that [create_features] adds has one entry per
    input row: the added columns stay aligned with the frame. *)
Theorem engineered_columns_aligned (df : DataFrame) (name : colname)
    (l : list value) :
  derived (create_features ops df) name = Some l ->
  length l = length (rows df) ∧
  length l = length (rows (frame (create_features ops df))).
Proof.
  intros Hl. rewrite frame_create_features, sort_values_length.
  split; by eapply derived_create_features_length.
Qed.

(** X3. When [Wind_Direction] is a numeric column, the sine and cosine
    columns hold at each row of the sorted frame the sine and cosine of
    the row's direction in radians; a row whose direction is NaN has
    NaN in both, never 0, and a row with a direction has both defined. *)
Theorem wind_components_follow_direction (df : DataFrame) (i : nat) (r : Row) :
  "Wind_Direction" ∈ columns df ->
  rows (frame (create_features ops df)) !! i = Some r ->
  ∃ s c,
    derived (create_features ops df) WindSin = Some s ∧
    derived (create_features ops df) WindCos = Some c ∧
    s !! i = Some (wind_component ops np_sin (cell r "Wind_Direction")) ∧
    c !! i = Some (wind_component ops np_cos (cell r "Wind_Direction")) ∧
    (cell r "Wind_Direction" = None -> s !! i = Some None ∧ c !! i = Some None) ∧
    (∀ x, cell r "Wind_Direction" = Some x ->
          s !! i = Some (Some (np_sin ops (np_deg2rad ops x))) ∧
          c !! i = Some (Some (np_cos ops (np_deg2rad ops x)))).
Proof.
  intros Hw Hr. rewrite frame_create_features in Hr.
  destruct (create_features_wind df Hw) as [Hs Hc].
  eexists _, _. split; [exact Hs|]. split; [exact Hc|].
  rewrite !list_lookup_fmap, Hr. simpl.
  split_and!; try done.
  - by intros ->.
  - by intros x ->.
Qed.

(** X4. A row without a kingdom belongs to no group: at such a row
    every lag column and every lag-difference column is NaN. *)
Theorem lag_without_kingdom (df : DataFrame) (name : colname)
    (l : list value) (i : nat) (r : Row) :
  (∃ c k, name = LagCol c k) ∨ (∃ c a b, name = LagDiffCol c a b) ->
  derived (create_features ops df) name = Some l ->
  rows (frame (create_features ops df)) !! i = Some r ->
  kingdom r = None ->
  l !! i = Some None.
Proof.
  intros Hname Hl Hr Hk. rewrite frame_create_features in Hr.
  assert (is_engineered (columns df) name) as Heng.
  { apply derived_create_features_iff. by rewrite Hl. }
  assert (∀ c k, lag_column (sort_values df) c k !! i = Some None) as Hlag.
  { intros c k. unfold lag_column, groupby_shift. apply shift_scan_no_key.
    - by rewrite list_lookup_fmap, Hr; simpl; rewrite Hk.
    - rewrite length_fmap. by eapply lookup_lt_Some. }
  destruct Hname as [(c & k & ->)|(c & a & b & ->)]; cbn [is_engineered] in Heng.
  - destruct Heng as (Hc & Hp & Hin).
    rewrite create_features_lag in Hl by done. injection Hl as <-. apply Hlag.
  - destruct Heng as (Hc & Hp & Hab).
    rewrite create_features_diff in Hl by done. injection Hl as <-.
    unfold diff_column, series_sub. by rewrite lookup_zip_with, !Hlag.
Qed.

End EngineeredColumns.

(** ** Rolling statistics never look ahead *)

Lemma insert_sorted_fmap {A K} (key : A -> K) cmp (g : A -> A) x l :
  (∀ y, key (g y) = key y) ->
  insert_sorted key cmp (g x) (g <$> l) = g <$> insert_sorted key cmp x l.
Proof.
  intros Hg. induction l as [|y l IH]; simpl; [done|].
  unfold key_leb. rewrite !Hg.
  destruct (cmp (key x) (key y)); [reflexivity|reflexivity|].
  rewrite fmap_cons. f_equal. exact IH.
Qed.

(** Changing rows without touching their keys commutes with the sort. *)
Lemma stable_sort_fmap {A K} (key : A -> K) cmp (g : A -> A) l :
  (∀ y, key (g y) = key y) ->
  stable_sort key cmp (g <$> l) = g <$> stable_sort key cmp l.
Proof.
  intros Hg. induction l as [|x l IH]; [done|].
  rewrite fmap_cons. simpl. by rewrite IH, insert_sorted_fmap.
Qed.

Lemma rolling_no_lookahead keys vals vals' w m agg i :
  length vals = length vals' ->
  (∀ j, j < i -> vals !! j = vals' !! j) ->
  rolling (groupby_shift keys vals 1) w m agg !! i
  = rolling (groupby_shift keys vals' 1) w m agg !! i.
Proof.
  intros Hl Hbefore.
  assert (take (S i) (groupby_shift keys vals 1)
          = take (S i) (groupby_shift keys vals' 1)) as Htake.
  { apply shift_scan_take; [|done]. apply list_eq. intros j.
    destruct (decide (j < i)) as [Hj|Hj].
    - rewrite !lookup_take_lt by done. by apply Hbefore.
    - rewrite !lookup_take_ge by lia. done. }
  unfold rolling. rewrite !list_lookup_imap. unfold window_at.
  rewrite Htake.
  rewrite <- (lookup_take_lt (groupby_shift keys vals 1) (S i) i) by lia.
  rewrite <- (lookup_take_lt (groupby_shift keys vals' 1) (S i) i) by lia.
  by rewrite Htake.
Qed.

Section RollingCausality.
Variable ops : FloatOps.

(** X5. A rolling statistic at row [i] of the sorted frame reads only
    the rows before it.  Changing the input rows in any way that keeps
    every row's kingdom and date and keeps the feature's value on the
    rows that stand before row [i] leaves the statistic at row [i] as
    it was: the row's own value and every later value play no part. *)
Theorem rolling_reads_earlier_rows_only (df : DataFrame) (g : Row -> Row)
    (col : string) (w : nat) (s : stat) (i : nat) :
  col ∈ FEATURE_COLS_FOR_ENGINEERING -> col ∈ columns df ->
  w ∈ ROLLING_WINDOWS ->
  (∀ r, row_key (g r) = row_key r) ->
  (∀ j r, j < i -> rows (frame (create_features ops df)) !! j = Some r ->
          cell (g r) col = cell r col) ->
  ∃ rc rc',
    derived (create_features ops df) (RollCol col w s) = Some rc ∧
    derived (create_features ops (map_rows g df)) (RollCol col w s) = Some rc' ∧
    rc' !! i = rc !! i.
Proof.
  intros Hc Hp Hw Hkey Hbefore. rewrite frame_create_features in Hbefore.
  eexists _, _. split; [by apply create_features_roll|].
  split; [by apply create_features_roll|].
  unfold roll_column, lag_column.
  assert (rows (sort_values (map_rows g df)) = g <$> rows (sort_values df)) as ->.
  { simpl. by apply stable_sort_fmap. }
  assert (kingdom <$> (g <$> rows (sort_values df))
          = kingdom <$> rows (sort_values df)) as ->.
  { rewrite <- list_fmap_compose. apply list_fmap_ext. intros j r _. simpl.
    specialize (Hkey r). unfold row_key in Hkey. congruence. }
  apply rolling_no_lookahead.
  - by rewrite !length_fmap.
  - intros j Hj. rewrite !list_lookup_fmap.
    destruct (rows (sort_values df) !! j) as [r|] eqn:Er; [|done].
    simpl. f_equal. by apply (Hbefore j).
Qed.

End RollingCausality.

(** ** Where the rolling window stays inside a region *)







Section RollingInsideRegion.
Variable ops : FloatOps.



End RollingInsideRegion.

(** ** The rolling statistics of one window, against each other *)








Section RollingOrder.
Variable ops : FloatOps.



End RollingOrder.

(** ** Regressor parameters *)

Lemma default_n_estimators : default_lgb_params !!! "n_estimators" = PInt 1500.
Proof. reflexivity. Qed.

(** X7. Whatever the tuned table holds for a target, the parameters
    it is trained with have the objective [regression_l1] and the seed
    42, hold no Tweedie power, and have a number of estimators that is
    not [None]. *)
Theorem final_params_forced (best : gmap string (gmap string param))
    (target : string) :
  let final := final_lgb_params_with best target in
  final !! "objective" = Some (PStr "regression_l1") ∧
  final !! "seed" = Some (PInt 42) ∧
  final !! "tweedie_variance_power" = None ∧
  ∃ v, final !! "n_estimators" = Some v ∧ v ≠ PNone.
Proof.
  unfold final_lgb_params_with.
  set (p := delete "tweedie_variance_power"
              (<["objective" := PStr "regression_l1"]>
                 (default ∅ (best !! target) ∪ default_lgb_params))).
  assert (p !! "objective" = Some (PStr "regression_l1")) as Hobj.
  { unfold p. rewrite lookup_delete_ne by done. apply lookup_insert_eq. }
  assert (p !! "tweedie_variance_power" = None) as Htw.
  { unfold p. apply lookup_delete_eq. }
  cbv zeta. rewrite default_n_estimators.
  destruct (p !! "n_estimators") as [[z|q|s|]|] eqn:En;
    rewrite lookup_insert_eq, !lookup_insert_ne by done;
    rewrite ?lookup_insert_eq, ?lookup_insert_ne by done;
    split_and!; try done; eauto.
Qed.

(** X8. For every other key the tuned entry of the target wins over
    the default, and a key without a tuned value keeps its default; the
    number of estimators is the tuned one unless that is missing or
    [None], in which case it is the default 1500. *)
Theorem final_params_tuned_over_default (best : gmap string (gmap string param))
    (target : string) (key : string) :
  let tuned := default ∅ (best !! target) in
  let final := final_lgb_params_with best target in
  (key ∉ ["objective"; "seed"; "tweedie_variance_power"; "n_estimators"] ->
   final !! key = match tuned !! key with
                  | Some v => Some v
                  | None => default_lgb_params !! key
                  end) ∧
  final !! "n_estimators" = match tuned !! "n_estimators" with
                            | Some PNone | None => Some (PInt 1500)
                            | Some v => Some v
                            end.
Proof.
  unfold final_lgb_params_with.
  set (tuned := default ∅ (best !! target)).
  set (p := delete "tweedie_variance_power"
              (<["objective" := PStr "regression_l1"]>
                 (tuned ∪ default_lgb_params))).
  assert (∀ k, k ≠ "objective" -> k ≠ "tweedie_variance_power" ->
               p !! k = match tuned !! k with
                        | Some v => Some v
                        | None => default_lgb_params !! k
                        end) as Hp.
  { intros k H1 H2. unfold p.
    rewrite lookup_delete_ne, lookup_insert_ne by done.
    rewrite lookup_union. by destruct (tuned !! k), (default_lgb_params !! k). }
  cbv zeta. rewrite default_n_estimators. split.
  - intros Hkey.
    assert (key ≠ "objective" ∧ key ≠ "seed" ∧ key ≠ "tweedie_variance_power"
            ∧ key ≠ "n_estimators") as (H1 & H2 & H3 & H4).
    { split_and!; intros ->; apply Hkey; in_list. }
    rewrite lookup_insert_ne by done.
    destruct (p !! "n_estimators") as [[z|q|s|]|];
      rewrite ?lookup_insert_ne by done; by apply Hp.
  - rewrite lookup_insert_ne by done.
    assert (p !! "n_estimators"
            = match tuned !! "n_estimators" with
              | Some v => Some v
              | None => default_lgb_params !! "n_estimators"
              end) as Hn by (by apply Hp).
    destruct (tuned !! "n_estimators") as [[z|q|s|]|];
      [| | | |change (default_lgb_params !! "n_estimators")
                with (Some (PInt 1500)) in Hn];
      rewrite Hn; by rewrite ?lookup_insert_eq.
Qed.

(** X9. A target without an entry in the tuned table is trained with
    exactly the default parameters. *)
Theorem final_params_fall_back (best : gmap string (gmap string param))
    (target : string) :
  best !! target = None ->
  final_lgb_params_with best target = default_lgb_params.
Proof.
  intros Hnone. unfold final_lgb_params_with. rewrite Hnone.
  cbn [default from_option id].
  rewrite (left_id_L ∅ (∪)).
  rewrite (insert_id default_lgb_params "objective") by reflexivity.
  rewrite (delete_id default_lgb_params) by reflexivity.
  replace (default_lgb_params !! "n_estimators") with (Some (PInt 1500))
    by reflexivity.
  by rewrite insert_id by reflexivity.
Qed.

(** ** Post-processing and the submission *)

(** Non-membership in a list of strings that is written out. *)
Ltac not_in_list :=
  let H := fresh in
  intros H; repeat (apply elem_of_cons in H as [H|H]; [discriminate H|]);
  by apply elem_of_nil in H.

Lemma select_columns_lookup cols table m c :
  select_columns cols table = Some m ->
  m !! c = if decide (c ∈ cols) then table !! c else None.
Proof.
  revert m. induction cols as [|x xs IH]; intros m; simpl.
  - intros [= <-]. by rewrite lookup_empty.
  - destruct (table !! x) as [v|] eqn:Ex; [|done]. simpl.
    destruct (select_columns xs table) as [rest|]; [|done]. simpl.
    intros [= <-]. destruct (decide (x = c)) as [->|Hne].
    + rewrite lookup_insert_eq, decide_True by by left. done.
    + rewrite lookup_insert_ne, (IH rest) by done.
      destruct (decide (c ∈ xs)) as [Hin|Hin].
      * rewrite decide_True; [done|by right].
      * rewrite decide_False; [done|]. by intros [?|?]%elem_of_cons.
Qed.

Lemma select_columns_is_Some cols table :
  is_Some (select_columns cols table) <-> ∀ c, c ∈ cols -> is_Some (table !! c).
Proof.
  induction cols as [|x xs IH]; simpl.
  - split; [|done]. intros _ c Hc. by apply elem_of_nil in Hc.
  - split.
    + intros Hsome c Hc. destruct (table !! x) as [v|] eqn:Ex; [|by destruct Hsome].
      simpl in Hsome.
      destruct (select_columns xs table) as [rest|] eqn:Er; [|by destruct Hsome].
      apply elem_of_cons in Hc as [->|Hc]; [by rewrite Ex|].
      by apply IH.
    + intros Hall. destruct (Hall x) as [v ->]; [by left|]. simpl.
      destruct (proj2 IH) as [rest ->]; [|done].
      intros c Hc. apply Hall. by right.
Qed.

Lemma clip_negative_nonneg x : (0 <= clip_negative x)%Q.
Proof.
  unfold clip_negative, Qmax'. destruct (Qle_bool 0 x) eqn:E.
  - by apply Qle_bool_iff.
  - apply Qle_refl.
Qed.

Lemma clip_negative_keeps x : (0 <= x)%Q -> clip_negative x = x.
Proof.
  intros H. unfold clip_negative, Qmax'. apply Qle_bool_iff in H. by rewrite H.
Qed.

Lemma clip_negative_zero x : (x < 0)%Q -> clip_negative x = 0%Q.
Proof.
  intros H. unfold clip_negative, Qmax'.
  destruct (Qle_bool 0 x) eqn:E; [|done].
  apply Qle_bool_iff in E. by apply Qlt_not_le in H.
Qed.

Lemma clip_columns_lookup (t : gmap string (list Q)) cols c :
  foldl (λ t col, alter clip_column col t) t cols !! c
  = if decide (c ∈ cols) then clip_column <$> t !! c else t !! c.
Proof.
  revert t. induction cols as [|x xs IH]; intros t; simpl.
  - done.
  - rewrite IH, lookup_alter.
    destruct (decide (c ∈ xs)) as [Hin|Hin];
      destruct (decide (x = c)) as [->|Hne].
    + rewrite decide_True by by left.
      destruct (t !! c) as [l|]; [|done]. simpl. f_equal. unfold clip_column.
      rewrite <- list_fmap_compose. apply list_fmap_ext. intros i y _. simpl.
      apply clip_negative_keeps, clip_negative_nonneg.
    + rewrite decide_True; [done|by right].
    + rewrite decide_True; [done|by left].
    + rewrite decide_False; [done|]. by intros [?|?]%elem_of_cons.
Qed.

Section PostProcessingFacts.
Variable wind_direction : Q -> Q -> Q.

Lemma predictions_final_lookup predictions pf pred_sin pred_cos c :
  predictions_final wind_direction predictions = Some pf ->
  predictions !! "Wind_Direction_sin" = Some pred_sin ->
  predictions !! "Wind_Direction_cos" = Some pred_cos ->
  pf !! c
  = if decide (c ∈ TARGET_COLS_ORIGINAL) then
      if decide (c = "Wind_Direction")
      then Some (zip_with wind_direction pred_sin pred_cos)
      else if decide (c ∈ clipped_cols)
           then clip_column <$> predictions !! c
           else predictions !! c
    else None.
Proof.
  unfold predictions_final. intros Hpf Hs Hc. rewrite Hs, Hc in Hpf.
  cbn [mbind option_bind] in Hpf.
  destruct (select_columns TARGET_COLS_ORIGINAL _) as [sel|] eqn:Esel; [|done].
  cbn [mbind option_bind] in Hpf. apply (inj Some) in Hpf. subst pf.
  rewrite clip_columns_lookup, (select_columns_lookup _ _ _ c Esel).
  destruct (decide (c ∈ TARGET_COLS_ORIGINAL)) as [Hin|Hin].
  - destruct (decide (c = "Wind_Direction")) as [->|Hne].
    + rewrite lookup_insert_eq. by rewrite decide_False by not_in_list.
    + by rewrite lookup_insert_ne.
  - by destruct (decide (c ∈ clipped_cols)).
Qed.

Lemma predictions_final_is_Some (predictions : gmap string (list Q)) :
  is_Some (predictions_final wind_direction predictions)
  <-> ∀ t, t ∈ targets_to_predict -> is_Some (predictions !! t).
Proof.
  unfold predictions_final. split.
  - intros Hsome t Ht.
    destruct (predictions !! "Wind_Direction_sin") as [ps|] eqn:Es;
      [|by destruct Hsome].
    destruct (predictions !! "Wind_Direction_cos") as [pc|] eqn:Ec;
      [|by destruct Hsome].
    cbn [mbind option_bind] in Hsome.
    destruct (select_columns TARGET_COLS_ORIGINAL _) as [sel|] eqn:Esel;
      [|by destruct Hsome].
    assert (is_Some (select_columns TARGET_COLS_ORIGINAL
              (<["Wind_Direction" := zip_with wind_direction ps pc]> predictions)))
      as Hsel by (by rewrite Esel).
    rewrite select_columns_is_Some in Hsel.
    unfold targets_to_predict in Ht.
    repeat (apply elem_of_cons in Ht as [->|Ht]);
      try (by rewrite ?Es, ?Ec);
      try (by apply elem_of_nil in Ht);
      (match goal with
       | |- is_Some (predictions !! ?c) =>
           specialize (Hsel c); rewrite lookup_insert_ne in Hsel by done;
           apply Hsel; unfold TARGET_COLS_ORIGINAL; in_list
       end).
  - intros Hall.
    destruct (Hall "Wind_Direction_sin") as [ps ->]; [unfold targets_to_predict; in_list|].
    destruct (Hall "Wind_Direction_cos") as [pc ->]; [unfold targets_to_predict; in_list|].
    cbn [mbind option_bind].
    destruct (proj2 (select_columns_is_Some TARGET_COLS_ORIGINAL
      (<["Wind_Direction" := zip_with wind_direction ps pc]> predictions)))
      as [sel ->]; [|done].
    intros c Hc. unfold TARGET_COLS_ORIGINAL in Hc.
    repeat (apply elem_of_cons in Hc as [->|Hc]);
      try (by apply elem_of_nil in Hc);
      try (by rewrite lookup_insert_eq);
      rewrite lookup_insert_ne by done; apply Hall;
      unfold targets_to_predict; in_list.
Qed.

(** X10. Post-processing goes through exactly when the predictions
    hold a column for each of the six trained targets; a missing one
    is a lookup error. *)
Theorem predictions_final_defined (predictions : gmap string (list Q)) :
  is_Some (predictions_final wind_direction predictions)
  <-> ∀ t, t ∈ targets_to_predict -> is_Some (predictions !! t).
Proof. apply predictions_final_is_Some. Qed.

(** X11. What post-processing hands on: the five original targets and
    nothing else.  Radiation, rain amount and wind speed are clipped
    at 0, entry by entry - a negative prediction becomes 0, any other
    stays - so they are never negative; the temperature column is
    passed on unchanged, negative values included. *)
Theorem predictions_final_clipped (predictions pf : gmap string (list Q)) :
  predictions_final wind_direction predictions = Some pf ->
  (∀ c, is_Some (pf !! c) <-> c ∈ TARGET_COLS_ORIGINAL) ∧
  pf !! "Avg_Temperature" = predictions !! "Avg_Temperature" ∧
  ∀ c, c ∈ clipped_cols ->
    ∃ l l', predictions !! c = Some l ∧ pf !! c = Some l' ∧
      length l' = length l ∧
      Forall (λ x, (0 <= x)%Q) l' ∧
      ∀ i x, l !! i = Some x ->
        ((0 <= x)%Q -> l' !! i = Some x) ∧ ((x < 0)%Q -> l' !! i = Some 0%Q).
Proof.
  intros Hpf.
  assert (is_Some (predictions_final wind_direction predictions)) as Hdef
    by (by rewrite Hpf).
  pose proof (proj1 (predictions_final_is_Some predictions) Hdef) as Hall.
  destruct (Hall "Wind_Direction_sin") as [ps Hs]; [unfold targets_to_predict; in_list|].
  destruct (Hall "Wind_Direction_cos") as [pc Hc]; [unfold targets_to_predict; in_list|].
  pose proof (λ c, predictions_final_lookup predictions pf ps pc c Hpf Hs Hc) as Hlook.
  split_and!.
  - intros c. rewrite Hlook. destruct (decide (c ∈ TARGET_COLS_ORIGINAL)) as [Hin|Hin].
    + split; [done|]. intros _.
      destruct (decide (c = "Wind_Direction")); [done|].
      assert (is_Some (predictions !! c)) as [l ->].
      { apply Hall. unfold TARGET_COLS_ORIGINAL in Hin. unfold targets_to_predict.
        repeat (apply elem_of_cons in Hin as [->|Hin]); try done; try in_list.
        by apply elem_of_nil in Hin. }
      by destruct (decide (c ∈ clipped_cols)).
    + split; [by intros []|done].
  - rewrite Hlook.
    rewrite decide_True by (unfold TARGET_COLS_ORIGINAL; in_list).
    rewrite decide_False by done. by rewrite decide_False by not_in_list.
  - intros c Hin.
    assert (is_Some (predictions !! c)) as [l Hl].
    { apply Hall. unfold clipped_cols in Hin. unfold targets_to_predict.
      repeat (apply elem_of_cons in Hin as [->|Hin]); try in_list.
      by apply elem_of_nil in Hin. }
    exists l, (clip_column l). unfold clip_column. split; [done|].
    split.
    { rewrite Hlook, Hl.
      rewrite (decide_True (P := c ∈ clipped_cols)) by done.
      assert (c ∈ TARGET_COLS_ORIGINAL ∧ c ≠ "Wind_Direction") as [H1 H2].
      { unfold clipped_cols in Hin. unfold TARGET_COLS_ORIGINAL.
        repeat (apply elem_of_cons in Hin as [->|Hin]);
          try (split; [in_list|done]).
        by apply elem_of_nil in Hin. }
      by rewrite decide_True, decide_False by done. }
    split; [by rewrite length_fmap|]. split.
    { apply Forall_fmap, Forall_forall. intros x _. apply clip_negative_nonneg. }
    intros i x Hx. rewrite list_lookup_fmap, Hx. simpl. split; intros H.
    + by rewrite clip_negative_keeps.
    + by rewrite clip_negative_zero.
Qed.

(** X22. Training and post-processing fit together: the table that a
    finished training loop leaves, started from the empty table, holds
    a column for each of the six targets and for nothing else, and
    post-processing of that table goes through. *)
Theorem loop_then_post_processing {Model : Type}
    (fit : string -> list (list value) -> list Q -> option Model)
    (predict : Model -> list (list value) -> list Q)
    (features : list string) (X_train_full : list (list value))
    (y_train_full : string -> list value) (X_test_full : list (list value))
    (predictions : gmap string (list Q)) :
  training_loop fit predict features X_train_full y_train_full X_test_full
    targets_to_predict ∅ = Some predictions ->
  (∀ t, is_Some (predictions !! t) <-> t ∈ targets_to_predict) ∧
  is_Some (predictions_final wind_direction predictions).
Proof.
  intros Hloop.
  assert (∀ t, is_Some (predictions !! t) <-> t ∈ targets_to_predict) as Hkeys.
  { intros t.
    rewrite (training_loop_lookup fit predict _ _ _ _ _ _ _ t Hloop).
    case_decide as Ht.
    - split; [done|]. intros _.
      clear -Hloop Ht. revert Hloop Ht.
      generalize (∅ : gmap string (list Q)).
      induction targets_to_predict as [|x xs IH]; intros acc Hloop Ht.
      + by apply elem_of_nil in Ht.
      + cbn [training_loop] in Hloop.
        destruct (predict_target fit predict features X_train_full
                    (y_train_full x) X_test_full x) as [v|] eqn:Ev; [|done].
        cbn [mbind option_bind] in Hloop.
        destruct (decide (t = x)) as [->|Hne].
        * by rewrite Ev.
        * apply elem_of_cons in Ht as [->|Ht]; [done|]. by eapply IH.
    - rewrite lookup_empty. split; [by intros []|done]. }
  split; [done|].
  apply predictions_final_is_Some. intros t Ht. by apply Hkeys.
Qed.

End PostProcessingFacts.

Lemma has_null_false l : has_null l = false -> fillna_0 l = l.
Proof.
  unfold has_null, fillna_0. induction l as [|[x|] l IH]; simpl; try done.
  intros H. f_equal. by apply IH.
Qed.

Lemma existsb_false_elem {A} (f : A -> bool) l x :
  existsb f l = false -> x ∈ l -> f x = false.
Proof.
  induction l as [|y l IH]; simpl; [by intros _ ?%elem_of_nil|].
  intros [Hy Hl]%orb_false_iff [->|Hin]%elem_of_cons; auto.
Qed.

(** Filling is the same as filling every column: a frame without a
    missing cell is its own filling. *)
Lemma fill_missing_lookup cols c :
  fill_missing cols !! c = fillna_0 <$> cols !! c.
Proof.
  unfold fill_missing.
  destruct (existsb has_null (snd <$> map_to_list cols)) eqn:E.
  - apply lookup_fmap.
  - destruct (cols !! c) as [l|] eqn:El; [|done]. simpl. f_equal. symmetry.
    apply has_null_false. eapply existsb_false_elem; [exact E|].
    apply list_elem_of_fmap. exists (c, l). split; [done|].
    by apply elem_of_map_to_list.
Qed.

Lemma positions_of_spec ids s j : j ∈ positions_of ids s <-> ids !! j = Some s.
Proof.
  unfold positions_of. rewrite list_elem_of_fmap. split.
  - intros ([j' x] & -> & Hin). apply list_elem_of_filter in Hin as [Hx Hin].
    simpl in *. subst x. apply list_elem_of_lookup in Hin as [k Hk].
    rewrite list_lookup_imap in Hk.
    destruct (ids !! k) as [y|] eqn:Ey; [|done]. simpl in Hk.
    by injection Hk as <- <-.
  - intros Hj. exists (j, s). split; [done|]. apply list_elem_of_filter.
    split; [done|]. apply list_elem_of_lookup. exists j.
    by rewrite list_lookup_imap, Hj.
Qed.

Lemma positions_of_NoDup ids s : NoDup (positions_of ids s).
Proof.
  unfold positions_of.
  assert (∀ n, NoDup (fst <$> filter (λ p : nat * Z, p.2 = s)
                                 (imap (λ i x, (n + i, x)) ids))) as H.
  { induction ids as [|x ids IH]; intros n; simpl; [constructor|].
    assert (∀ j, j ∈ fst <$> filter (λ p : nat * Z, p.2 = s)
                               (imap ((λ i x, (n + i, x)) ∘ S) ids) -> n < j)
      as Hgt.
    { intros j ([j' y] & -> & Hin)%list_elem_of_fmap.
      apply list_elem_of_filter in Hin as [_ Hin].
      apply list_elem_of_lookup in Hin as [k Hk].
      rewrite list_lookup_imap in Hk.
      destruct (ids !! k); [|done]. simpl in Hk. injection Hk as <- _.
      simpl. lia. }
    assert (NoDup (fst <$> filter (λ p : nat * Z, p.2 = s)
                             (imap ((λ i x, (n + i, x)) ∘ S) ids))) as Hnd.
    { rewrite (imap_ext _ (λ i x, (S n + i, x))); [apply IH|].
      intros i y _. simpl. f_equal. lia. }
    rewrite filter_cons. case_decide; [|done].
    rewrite fmap_cons. constructor; [|done].
    intros Hin. apply Hgt in Hin. simpl in Hin. lia. }
  exact (H 0).
Qed.

(** With prediction IDs that do not repeat, an ID has at most one
    matching row. *)
Lemma positions_of_unique ids s :
  NoDup ids ->
  positions_of ids s = [] ∧ s ∉ ids
  ∨ ∃ j, positions_of ids s = [j] ∧ ids !! j = Some s.
Proof.
  intros Hnd. pose proof (positions_of_NoDup ids s) as Hpos.
  destruct (positions_of ids s) as [|j [|j' js]] eqn:E.
  - left. split; [done|]. intros [j Hj]%list_elem_of_lookup.
    apply positions_of_spec in Hj. rewrite E in Hj. by apply elem_of_nil in Hj.
  - right. exists j. split; [done|]. apply positions_of_spec. rewrite E. by left.
  - exfalso.
    assert (ids !! j = Some s) as Hj by (apply positions_of_spec; rewrite E; by left).
    assert (ids !! j' = Some s) as Hj'
      by (apply positions_of_spec; rewrite E; right; by left).
    assert (j = j') as -> by exact (NoDup_lookup ids j j' s Hnd Hj Hj').
    inversion Hpos as [|? ? Hnin _]; subst. apply Hnin. by left.
Qed.

Lemma merge_left_unique sample_ids pred_ids :
  NoDup pred_ids ->
  merge_left sample_ids pred_ids
  = (λ s, (s, head (positions_of pred_ids s))) <$> sample_ids.
Proof.
  intros Hnd. unfold merge_left.
  induction sample_ids as [|s ss IH]; [done|].
  rewrite bind_cons, fmap_cons, IH.
  destruct (positions_of_unique pred_ids s Hnd) as [[-> _]|(j & -> & _)]; done.
Qed.

Lemma merge_left_ids sample_ids pred_ids s :
  s ∈ (merge_left sample_ids pred_ids).*1 <-> s ∈ sample_ids.
Proof.
  unfold merge_left. induction sample_ids as [|x xs IH].
  - done.
  - rewrite bind_cons, fmap_app, elem_of_app, IH, elem_of_cons.
    assert (s ∈ (match positions_of pred_ids x with
                 | [] => [(x, None)]
                 | js => (λ j, (x, Some j)) <$> js
                 end).*1 <-> s = x) as ->; [|done].
    destruct (positions_of pred_ids x) as [|j js].
    + simpl. apply list_elem_of_singleton.
    + rewrite <- list_fmap_compose. split.
      * intros (k & -> & _)%list_elem_of_fmap. done.
      * intros ->. apply list_elem_of_fmap. exists j. split; [done|by left].
Qed.

(** X12. The submission has no missing cell: every column has one
    defined entry per row, and the IDs of its rows are the sample IDs,
    none left out and none added. *)
Theorem submission_has_no_nulls (sample_ids pred_ids : list Z)
    (pf : gmap string (list Q)) :
  let sub := final_submission sample_ids pred_ids pf in
  (∀ s, s ∈ sub.1 <-> s ∈ sample_ids) ∧
  (∀ c, is_Some (sub.2 !! c) <-> is_Some (pf !! c)) ∧
  ∀ c l, sub.2 !! c = Some l ->
    length l = length sub.1 ∧ Forall is_Some l.
Proof.
  unfold final_submission. cbv zeta. cbn [fst snd]. split_and!.
  - apply merge_left_ids.
  - intros c. rewrite fill_missing_lookup, lookup_fmap.
    destruct (pf !! c); simpl; split; (done || by intros []).
  - intros c l. rewrite fill_missing_lookup, lookup_fmap.
    destruct (pf !! c) as [col|]; [|done]. cbn [fmap option_fmap option_map].
    intros Hl. apply (inj Some) in Hl. subst l.
    unfold fillna_0, merged_column. rewrite !length_fmap. split; [done|].
    apply Forall_fmap, Forall_true. intros v. simpl. by eexists.
Qed.

(** X13. When no prediction ID repeats, the submission has exactly one
    row per sample ID, in the order of the sample file.  The row of a
    sample ID that has a prediction carries that prediction, and the
    row of a sample ID without one carries 0 in every column. *)
Theorem submission_rows_with_unique_ids (sample_ids pred_ids : list Z)
    (pf : gmap string (list Q)) :
  NoDup pred_ids ->
  let sub := final_submission sample_ids pred_ids pf in
  sub.1 = sample_ids ∧
  ∀ c col i s,
    pf !! c = Some col -> sample_ids !! i = Some s ->
    ∃ l, sub.2 !! c = Some l ∧
      (∀ j x, pred_ids !! j = Some s -> col !! j = Some x ->
              l !! i = Some (Some x)) ∧
      (s ∉ pred_ids -> l !! i = Some (Some 0%Q)).
Proof.
  intros Hnd. unfold final_submission. cbv zeta. cbn [fst snd].
  rewrite merge_left_unique by done. split.
  - rewrite <- list_fmap_compose. apply list_fmap_id.
  - intros c col i s Hc Hs. eexists. split.
    { by rewrite fill_missing_lookup, lookup_fmap, Hc. }
    unfold fillna_0, merged_column.
    rewrite !list_lookup_fmap, Hs. simpl. split.
    + intros j x Hj Hx.
      destruct (positions_of_unique pred_ids s Hnd) as [[_ Hnin]|(j' & -> & Hj')].
      * exfalso. apply Hnin. by eapply list_elem_of_lookup_2.
      * assert (j' = j) as -> by exact (NoDup_lookup pred_ids j' j s Hnd Hj' Hj).
        simpl. by rewrite Hx.
    + intros Hnin.
      destruct (positions_of_unique pred_ids s Hnd) as [[-> _]|(j' & _ & Hj')].
      * done.
      * exfalso. apply Hnin. by eapply list_elem_of_lookup_2.
Qed.

(** ** Location mapping, again, and the way through the pipeline *)

Lemma hist_rows_fmap g (f : Row -> Row) rs :
  (∀ r, kingdom (f r) = kingdom r ∧ is_test (f r) = is_test r) ->
  hist_rows g (f <$> rs) = f <$> hist_rows g rs.
Proof.
  intros Hf. unfold hist_rows. induction rs as [|r rs IH]; [done|].
  rewrite fmap_cons, !filter_cons. destruct (Hf r) as [-> ->].
  case_decide; rewrite IH; done.
Qed.

Lemma first_defined_const (v : value) (l : list value) :
  l ≠ [] -> Forall (λ x, x = v) l -> first_defined l = v.
Proof.
  intros Hne Hall. induction Hall as [|x l -> Hall IH]; [done|].
  simpl. destruct v as [q|]; [done|].
  destruct l as [|y l]; [done|]. by apply IH.
Qed.

Lemma cell_merge_coords m r c :
  cell (merge_coords m r) c
  = if decide (c = "longitude") then (kingdom r ≫= (m !!.)) ≫= snd
    else if decide (c = "latitude") then (kingdom r ≫= (m !!.)) ≫= fst
    else cell r c.
Proof.
  unfold merge_coords. rewrite !cell_set_cell.
  destruct (decide (c = "longitude")) as [->|H1]; [done|].
  rewrite (proj2 (String.eqb_neq c "longitude")) by done.
  destruct (decide (c = "latitude")) as [->|H2]; [done|].
  by rewrite (proj2 (String.eqb_neq c "latitude")).
Qed.

Lemma coord_map_mapped rs g :
  coord_map (merge_coords (coord_map rs) <$> rs) !! g = coord_map rs !! g.
Proof.
  rewrite !coord_map_lookup, hist_rows_fmap by done.
  destruct (hist_rows g rs) as [|h hs] eqn:Eh; [done|].
  assert (∀ r, r ∈ h :: hs -> kingdom r = Some g) as Hk.
  { intros r Hr. rewrite <- Eh in Hr. unfold hist_rows in Hr.
    apply list_elem_of_filter in Hr as [[? _] _]. done. }
  assert (coord_map rs !! g
          = Some (first_defined ((λ r, cell r "latitude") <$> h :: hs),
                  first_defined ((λ r, cell r "longitude") <$> h :: hs))) as Hg.
  { by rewrite coord_map_lookup, Eh. }
  rewrite fmap_cons. cbv beta iota zeta.
  rewrite <- (fmap_cons (merge_coords (coord_map rs))).
  rewrite <- !list_fmap_compose.
  set (m := coord_map rs) in *.
  assert (first_defined (((λ r, cell r "latitude") ∘ merge_coords m) <$> h :: hs)
          = first_defined ((λ r, cell r "latitude") <$> h :: hs)) as ->.
  { apply first_defined_const; [by rewrite fmap_cons|].
    apply Forall_fmap, Forall_forall. intros r Hr%list_elem_of_In.
    unfold compose.
    rewrite cell_merge_coords, decide_False, decide_True by done.
    by rewrite (Hk r Hr); simpl; rewrite Hg. }
  assert (first_defined (((λ r, cell r "longitude") ∘ merge_coords m) <$> h :: hs)
          = first_defined ((λ r, cell r "longitude") <$> h :: hs)) as ->.
  { apply first_defined_const; [by rewrite fmap_cons|].
    apply Forall_fmap, Forall_forall. intros r Hr%list_elem_of_In.
    unfold compose.
    rewrite cell_merge_coords, decide_True by done.
    by rewrite (Hk r Hr); simpl; rewrite Hg. }
  done.
Qed.

(** X18. The location mapping is idempotent: mapping an already mapped
    frame changes no cell of any row, coordinates included. *)
Theorem map_locations_idempotent (df : DataFrame) (i : nat) (r1 r2 : Row) :
  rows (map_locations df) !! i = Some r1 ->
  rows (map_locations (map_locations df)) !! i = Some r2 ->
  ID r2 = ID r1 ∧ kingdom r2 = kingdom r1 ∧ datetime r2 = datetime r1 ∧
  is_test r2 = is_test r1 ∧ ∀ c, cell r2 c = cell r1 c.
Proof.
  unfold map_locations. cbn [rows]. rewrite !list_lookup_fmap.
  destruct (rows df !! i) as [r|] eqn:Er; [|done].
  cbn [fmap option_fmap option_map].
  intros H1 H2. apply (inj Some) in H1, H2. subst r1 r2.
  set (m := coord_map (rows df)).
  split_and!; try done.
  intros c. rewrite (cell_merge_coords _ (merge_coords m r)).
  change (kingdom (merge_coords m r)) with (kingdom r).
  destruct (decide (c = "longitude")) as [->|H1].
  { rewrite cell_merge_coords, decide_True by done.
    destruct (kingdom r) as [g|]; [|done]. cbn [mbind option_bind].
    unfold m. by rewrite coord_map_mapped. }
  destruct (decide (c = "latitude")) as [->|H2]; [|done].
  rewrite cell_merge_coords, decide_False, decide_True by done.
  destruct (kingdom r) as [g|]; [|done]. cbn [mbind option_bind].
  unfold m. by rewrite coord_map_mapped.
Qed.

(** ** Rows on their way through the pipeline *)

Lemma convert_column_rows df col :
  ∃ g : Row -> Row,
    rows (convert_column df col) = g <$> rows df ∧
    ∀ r, ID (g r) = ID r ∧ is_test (g r) = is_test r.
Proof.
  unfold convert_column. case_decide.
  - exists (convert_row col). split; [done|]. intros r. unfold convert_row.
    by destruct (kelvin_mask (cell r col)).
  - exists id. split; [by rewrite list_fmap_id|done].
Qed.

Lemma convert_temperatures_rows df :
  ∃ g : Row -> Row,
    rows (convert_temperatures df) = g <$> rows df ∧
    ∀ r, ID (g r) = ID r ∧ is_test (g r) = is_test r.
Proof.
  unfold convert_temperatures, temp_cols. cbn [foldl].
  destruct (convert_column_rows df "Avg_Temperature") as (g1 & E1 & H1).
  destruct (convert_column_rows (convert_column df "Avg_Temperature")
              "Avg_Feels_Like_Temperature") as (g2 & E2 & H2).
  exists (g2 ∘ g1). split.
  - by rewrite E2, E1, <- list_fmap_compose.
  - intros r. unfold compose. destruct (H2 (g1 r)) as [-> ->]. apply H1.
Qed.

Lemma filter_fmap_flag (b : bool) (g : Row -> Row) (rs : list Row) :
  (∀ r, is_test (g r) = is_test r) ->
  filter (λ r, is_test r = b) (g <$> rs) = g <$> filter (λ r, is_test r = b) rs.
Proof.
  intros Hg. induction rs as [|r rs IH]; [done|].
  rewrite fmap_cons, !filter_cons, Hg, IH. by case_decide.
Qed.

Lemma filter_flag_all (b : bool) (rs : list Row) :
  (∀ r, r ∈ rs -> is_test r = b) -> filter (λ r, is_test r = b) rs = rs.
Proof.
  induction rs as [|r rs IH]; intros H; [done|].
  rewrite filter_cons, decide_True by (apply H; by left).
  rewrite IH; [done|]. intros r' Hr'. apply H. by right.
Qed.

Lemma filter_flag_none (b : bool) (rs : list Row) :
  (∀ r, r ∈ rs -> is_test r ≠ b) -> filter (λ r, is_test r = b) rs = [].
Proof.
  induction rs as [|r rs IH]; intros H; [done|].
  rewrite filter_cons, decide_False by (apply H; by left).
  apply IH. intros r' Hr'. apply H. by right.
Qed.

Section Pipeline.
Variable ops : FloatOps.

(** X19. No row is lost, added or moved to the other side on the way
    through location mapping, temperature conversion and feature
    engineering: the IDs of the inference rows after the split are the
    IDs of the test file, each as often as there, in some order, and
    the IDs of the historical rows are those of the training file. *)
Theorem split_recovers_files (train_df_orig test_df_orig : DataFrame) :
  let df := prepare ops train_df_orig test_df_orig in
  test_ids df ≡ₚ ID <$> rows test_df_orig ∧
  ID <$> df_train df ≡ₚ ID <$> rows train_df_orig ∧
  length (df_test df) = length (rows test_df_orig) ∧
  length (df_train df) = length (rows train_df_orig).
Proof.
  cbv zeta. unfold test_ids, df_test, df_train, prepare.
  rewrite frame_create_features.
  set (d := map_locations (concat_frames train_df_orig test_df_orig)).
  destruct (convert_temperatures_rows d) as (g & Eg & Hg).
  assert (rows d = merge_coords (coord_map (rows (concat_frames train_df_orig test_df_orig)))
                     <$> rows (concat_frames train_df_orig test_df_orig)) as Ed by done.
  set (m := coord_map _) in Ed.
  assert (∀ b, filter (λ r, is_test r = b) (rows (sort_values (convert_temperatures d)))
               ≡ₚ g <$> (merge_coords m <$>
                    filter (λ r, is_test r = b)
                      (rows (concat_frames train_df_orig test_df_orig)))) as Hperm.
  { intros b. cbn [rows sort_values]. rewrite stable_sort_perm, Eg, Ed.
    rewrite filter_fmap_flag by (intros r; apply Hg).
    by rewrite filter_fmap_flag. }
  assert (filter (λ r, is_test r = true)
            (rows (concat_frames train_df_orig test_df_orig))
          = as_combined true (columns test_df_orig) <$> rows test_df_orig) as Htest.
  { cbn [rows concat_frames]. rewrite list.filter_app.
    rewrite filter_flag_none, filter_flag_all; [done|..];
      intros r (r0 & -> & _)%list_elem_of_fmap; done. }
  assert (filter (λ r, is_test r = false)
            (rows (concat_frames train_df_orig test_df_orig))
          = as_combined false (columns train_df_orig) <$> rows train_df_orig) as Htrain.
  { cbn [rows concat_frames]. rewrite list.filter_app.
    rewrite filter_flag_all, filter_flag_none; [by rewrite app_nil_r|..];
      intros r (r0 & -> & _)%list_elem_of_fmap; done. }
  assert (∀ (rs : list Row) b cols,
            ID <$> (g <$> (merge_coords m <$> (as_combined b cols <$> rs)))
                       = ID <$> rs) as Hid.
  { intros rs b cols. rewrite <- !list_fmap_compose. apply list_fmap_ext.
    intros j r _. unfold compose. by destruct (Hg (merge_coords m (as_combined b cols r))) as [-> _]. }
  split_and!.
  - by rewrite Hperm, Htest, Hid.
  - by rewrite Hperm, Htrain, Hid.
  - by rewrite Hperm, Htest, !length_fmap.
  - by rewrite Hperm, Htrain, !length_fmap.
Qed.

Lemma stable_sort_sorted_id {A K} (key : A -> K) cmp l :
  StronglySorted (key_le key cmp) l -> stable_sort key cmp l = l.
Proof.
  induction 1 as [|x l Hs IH Hall]; [done|].
  simpl. rewrite IH. destruct l as [|y l]; [done|]. simpl.
  apply Forall_cons_1 in Hall as [Hxy _].
  unfold key_leb. unfold key_le in Hxy.
  by destruct (cmp (key x) (key y)).
Qed.

(** X20. The canonical order is a fixed point: the rows that
    [create_features] returns are left where they are when they are
    engineered again, and so is every frame whose rows already stand
    in canonical order. *)
Theorem sorted_frame_keeps_order (df : DataFrame) :
  rows (frame (create_features ops (frame (create_features ops df))))
  = rows (frame (create_features ops df)) ∧
  (StronglySorted (key_le row_key key_compare) (rows df) ->
   rows (frame (create_features ops df)) = rows df).
Proof.
  rewrite !frame_create_features. cbn [rows sort_values]. split.
  - apply stable_sort_sorted_id, stable_sort_sorted, key_compare_order.
  - apply stable_sort_sorted_id.
Qed.

End Pipeline.
(** ** The further properties at sample inputs *)

Lemma engineered_columns_aligned_witness :
  ∃ l, derived (create_features sample_ops two_regions) (LagCol "Radiation" 1)
       = Some l ∧
       length l = length (rows two_regions).
Proof.
  destruct (derived (create_features sample_ops two_regions)
              (LagCol "Radiation" 1)) as [l|] eqn:E; [|by vm_compute in E].
  exists l. split; [done|].
  exact (proj1 (engineered_columns_aligned sample_ops two_regions
                  (LagCol "Radiation" 1) l E)).
Defined.

Lemma wind_components_follow_direction_witness :
  "Wind_Direction" ∈ columns wind_frame ∧
  ∃ r s c,
    rows (frame (create_features sample_ops wind_frame)) !! 1 = Some r ∧
    cell r "Wind_Direction" = None ∧
    derived (create_features sample_ops wind_frame) WindSin = Some s ∧
    derived (create_features sample_ops wind_frame) WindCos = Some c ∧
    s !! 1 = Some None ∧ c !! 1 = Some None.
Proof.
  assert ("Wind_Direction" ∈ columns wind_frame) as H1 by in_list.
  split; [done|].
  exists (sample_row "A" 2 false []).
  destruct (wind_components_follow_direction sample_ops wind_frame 1
              (sample_row "A" 2 false []) H1 eq_refl)
    as (s & c & Hs & Hc & _ & _ & Hnan & _).
  exists s, c. destruct (Hnan eq_refl) as [Hs1 Hc1]. by split_and!.
Defined.

Lemma lag_without_kingdom_witness :
  ∃ l,
    derived (create_features sample_ops stray_row_frame) (LagCol "Radiation" 1)
    = Some l ∧
    rows (frame (create_features sample_ops stray_row_frame)) !! 0
    = Some stray_row ∧
    kingdom stray_row = None ∧ l !! 0 = Some None.
Proof.
  destruct (derived (create_features sample_ops stray_row_frame)
              (LagCol "Radiation" 1)) as [l|] eqn:E; [|by vm_compute in E].
  assert (rows (frame (create_features sample_ops stray_row_frame)) !! 0
          = Some stray_row) as Hrow by reflexivity.
  exists l. split_and!; [done..|].
  refine (lag_without_kingdom sample_ops stray_row_frame (LagCol "Radiation" 1)
            l 0 stray_row _ E Hrow eq_refl).
  left. by exists "Radiation", 1.
Defined.

Lemma rolling_reads_earlier_rows_only_witness :
  "Radiation" ∈ FEATURE_COLS_FOR_ENGINEERING ∧
  "Radiation" ∈ columns eight_days ∧ 3 ∈ ROLLING_WINDOWS ∧
  ∃ rc rc',
    derived (create_features sample_ops eight_days) (RollCol "Radiation" 3 Mean)
    = Some rc ∧
    derived (create_features sample_ops (map_rows overwrite_from_day_4 eight_days))
      (RollCol "Radiation" 3 Mean) = Some rc' ∧
    rc' !! 3 = rc !! 3.
Proof.
  assert ("Radiation" ∈ FEATURE_COLS_FOR_ENGINEERING) as H1 by in_list.
  assert ("Radiation" ∈ columns eight_days) as H2 by in_list.
  assert (3 ∈ ROLLING_WINDOWS) as H3 by in_list.
  split_and!; [done..|].
  apply (rolling_reads_earlier_rows_only sample_ops eight_days
           overwrite_from_day_4 "Radiation" 3 Mean 3 H1 H2 H3).
  - intros r. unfold overwrite_from_day_4.
    destruct (datetime r) as [d|]; [|done]. by destruct (d <? 4)%Z.
  - intros j r Hj Hr. rewrite frame_create_features in Hr.
    change (rows (sort_values eight_days)) with (rows eight_days) in Hr.
    destruct j as [|[|[|j]]]; [..|lia];
      apply (inj Some) in Hr; by subst r.
Defined.



Lemma final_params_fall_back_witness :
  best_params_all_targets !! "Evapotranspiration" = None ∧
  final_lgb_params_with best_params_all_targets "Evapotranspiration"
  = default_lgb_params.
Proof.
  assert (best_params_all_targets !! "Evapotranspiration" = None) as H1
    by (vm_compute; reflexivity).
  split; [done|].
  exact (final_params_fall_back best_params_all_targets "Evapotranspiration" H1).
Defined.

Lemma predictions_final_clipped_witness :
  ∃ pf l',
    predictions_final sample_wind_direction sample_predictions = Some pf ∧
    pf !! "Wind_Speed" = Some l' ∧ Forall (λ x, (0 <= x)%Q) l' ∧
    l' !! 2 = Some 0%Q.
Proof.
  destruct (predictions_final sample_wind_direction sample_predictions)
    as [pf|] eqn:E; [|by vm_compute in E].
  destruct (predictions_final_clipped sample_wind_direction sample_predictions
              pf E) as (_ & _ & Hclip).
  destruct (Hclip "Wind_Speed") as (l & l' & Hl & Hl' & _ & Hpos & Hv);
    [unfold clipped_cols; in_list|].
  exists pf, l'. split_and!; [done..|].
  assert (l = [4%Q; 6%Q; (-7)%Q]) as ->.
  { apply (inj Some). rewrite <- Hl. vm_compute. reflexivity. }
  by apply (Hv 2 (-7)%Q).
Defined.

Lemma submission_rows_with_unique_ids_witness :
  NoDup [3%Z; 1%Z] ∧
  (final_submission [1%Z; 2%Z; 3%Z] [3%Z; 1%Z] {["Radiation" := [5%Q; 7%Q]]}).1
  = [1%Z; 2%Z; 3%Z] ∧
  ∃ l, (final_submission [1%Z; 2%Z; 3%Z] [3%Z; 1%Z]
          {["Radiation" := [5%Q; 7%Q]]}).2 !! "Radiation" = Some l ∧
       l !! 0 = Some (Some 7%Q) ∧ l !! 1 = Some (Some 0%Q).
Proof.
  assert (NoDup [3%Z; 1%Z]) as Hnd.
  { repeat constructor; rewrite ?elem_of_cons, ?elem_of_nil; intros H;
      repeat (destruct H as [H|H]; [lia|]); done. }
  split; [done|].
  destruct (submission_rows_with_unique_ids [1%Z; 2%Z; 3%Z] [3%Z; 1%Z]
              {["Radiation" := [5%Q; 7%Q]]} Hnd) as [Hids Hrows].
  split; [done|].
  destruct (Hrows "Radiation" [5%Q; 7%Q] 0 1%Z (lookup_singleton_eq _ _) eq_refl)
    as (l & Hl & Hhit & _).
  destruct (Hrows "Radiation" [5%Q; 7%Q] 1 2%Z (lookup_singleton_eq _ _) eq_refl)
    as (l2 & Hl2 & _ & Hmiss).
  assert (l2 = l) as -> by congruence.
  exists l. split_and!; [done| |].
  - by apply (Hhit 1 7%Q).
  - apply Hmiss. rewrite !elem_of_cons, elem_of_nil. intros [?|[?|?]]; lia || done.
Defined.

Lemma smape_between_0_and_200_witness :
  ∃ q, smape [Some 1%Q; Some 3%Q] [Some 3%Q; Some 1%Q] = Some (Some q) ∧
       (0 <= q <= 200)%Q.
Proof.
  destruct (smape [Some 1%Q; Some 3%Q] [Some 3%Q; Some 1%Q]) as [[q|]|] eqn:E;
    [|by vm_compute in E..].
  exists q. split; [done|].
  exact (smape_between_0_and_200 [Some 1%Q; Some 3%Q] [Some 3%Q; Some 1%Q] q E).
Defined.

Lemma smape_of_equal_arrays_witness :
  [Some 0%Q; Some 5%Q] ≠ [] ∧ Forall is_Some [Some 0%Q; Some 5%Q] ∧
  ∃ q, smape [Some 0%Q; Some 5%Q] [Some 0%Q; Some 5%Q] = Some (Some q) ∧ (q == 0)%Q.
Proof.
  assert ([Some 0%Q; Some 5%Q] ≠ []) as H1 by done.
  assert (Forall is_Some [Some 0%Q; Some 5%Q]) as H2 by (repeat constructor; eauto).
  split_and!; [done..|].
  exact (smape_of_equal_arrays [Some 0%Q; Some 5%Q] H1 H2).
Defined.

Lemma map_locations_idempotent_witness :
  ∃ r1 r2,
    rows (map_locations late_latitude) !! 2 = Some r1 ∧
    rows (map_locations (map_locations late_latitude)) !! 2 = Some r2 ∧
    cell r1 "latitude" = Some 2%Q ∧ cell r2 "latitude" = Some 2%Q.
Proof.
  eexists _, _. split; [reflexivity|]. split; [reflexivity|].
  split; [reflexivity|].
  match goal with
  | |- cell ?r2 _ = _ =>
      destruct (map_locations_idempotent late_latitude 2 _ r2 eq_refl eq_refl)
        as (_ & _ & _ & _ & Hcell)
  end.
  rewrite Hcell. reflexivity.
Defined.

Lemma loop_then_post_processing_witness :
  ∃ predictions,
    training_loop (Model := unit) (λ _ _ _, Some tt) (λ _ X, (λ _, 1%Q) <$> X)
      ["month_sin"] [[Some 1%Q]; [Some 2%Q]] (λ _, [Some 5%Q; None])
      [[Some 3%Q]; [None]] targets_to_predict ∅ = Some predictions ∧
    is_Some (predictions !! "Wind_Direction_cos") ∧
    is_Some (predictions_final sample_wind_direction predictions).
Proof.
  destruct (training_loop (Model := unit) (λ _ _ _, Some tt)
              (λ _ X, (λ _, 1%Q) <$> X)
              ["month_sin"] [[Some 1%Q]; [Some 2%Q]] (λ _, [Some 5%Q; None])
              [[Some 3%Q]; [None]] targets_to_predict ∅)
    as [predictions|] eqn:E; [|by vm_compute in E].
  exists predictions. split; [done|].
  destruct (loop_then_post_processing sample_wind_direction _ _ _ _ _ _
              predictions E) as [Hkeys Hpost].
  split; [|done]. apply Hkeys. unfold targets_to_predict. in_list.
Defined.

(** ** The range of the wind direction *)

(** C5 at a predicted sine just below zero.  With the sine -1e-20 and
    the cosine 1 the arc tangent is -1e-20; the angle in degrees is a
    tiny negative number, and its remainder modulo 360 is 360 itself,
    the sum being rounded to the nearest double: the direction is not
    below 360. *)
Theorem wind_direction_reaches_360 (np_arctan2 : float -> float -> float) :
  np_arctan2 tiny_negative_sine 1%float = tiny_negative_sine ->
  final_wind_direction_preds np_arctan2 tiny_negative_sine 1%float = 360%float ∧
  (final_wind_direction_preds np_arctan2 tiny_negative_sine 1 <? 360)%float
  = false.
Proof.
  intros Hangle. unfold final_wind_direction_preds. rewrite Hangle.
  split; vm_compute; reflexivity.
Qed.

Lemma wind_direction_reaches_360_witness :
  small_angle_arctan2 tiny_negative_sine 1%float = tiny_negative_sine ∧
  final_wind_direction_preds small_angle_arctan2 tiny_negative_sine 1%float
  = 360%float.
Proof.
  assert (small_angle_arctan2 tiny_negative_sine 1%float = tiny_negative_sine)
    as H1 by (vm_compute; reflexivity).
  split; [done|].
  exact (proj1 (wind_direction_reaches_360 small_angle_arctan2 H1)).
Defined.
